(** * meshcore-hashtag-cracker: a shallow embedding of the cracking engine

    Strings of the TypeScript code are modelled as Rocq [string]s whose
    characters are UTF-16 code units below 256 (the Latin-1 range);
    decrypted messages, which may carry any code unit, are [list N].
    Numbers that the code uses as indices or offsets are [Z]; room-name
    lengths are [nat].  The cryptographic primitives, the packet decoder,
    the accelerator backend and the clock are external to the modelled
    sources; they are the fields of the record [Prims]. *)

From Stdlib Require Import ZArith List String Ascii Bool Lia Sorting.Sorted.
From Stdlib Require QArith.QArith_base.
Import ListNotations.
Open Scope list_scope.

(* ------------------------------------------------------------------ *)
(** ** JavaScript string primitives used by the code *)

Module Js.

Definition code (c : ascii) : nat := nat_of_ascii c.

(** [String.prototype.trim]: white space and line terminators, restricted
    to code units below 256 (TAB, LF, VT, FF, CR, SPACE, NBSP). *)
Definition is_ws (c : ascii) : bool :=
  let n := code c in
  ((9 <=? n) && (n <=? 13))%nat || (n =? 32)%nat || (n =? 160)%nat.

Fixpoint drop_ws (cs : list ascii) : list ascii :=
  match cs with
  | [] => []
  | c :: cs' => if is_ws c then drop_ws cs' else cs
  end.

Definition trim (s : string) : string :=
  string_of_list_ascii
    (rev (drop_ws (rev (drop_ws (list_ascii_of_string s))))).

(** [String.prototype.toLowerCase] on code units below 256. *)
Definition lower_char (c : ascii) : ascii :=
  let n := code c in
  if ((65 <=? n) && (n <=? 90))%nat
     || ((192 <=? n) && (n <=? 222) && negb (n =? 215))%nat
  then ascii_of_nat (n + 32) else c.

Fixpoint toLowerCase (s : string) : string :=
  match s with
  | EmptyString => EmptyString
  | String c s' => String (lower_char c) (toLowerCase s')
  end.

(** [s.split(sep)] for a one-character separator. *)
Fixpoint split_aux (sep : ascii) (cs : list ascii) (cur : list ascii)
  : list string :=
  match cs with
  | [] => [string_of_list_ascii (rev cur)]
  | c :: cs' =>
      if Ascii.eqb c sep
      then string_of_list_ascii (rev cur) :: split_aux sep cs' []
      else split_aux sep cs' (c :: cur)
  end.

Definition split (sep : ascii) (s : string) : list string :=
  split_aux sep (list_ascii_of_string s) [].

(** Truthiness of a string ([!s] is true exactly for the empty string). *)
Definition truthy (s : string) : bool :=
  match s with EmptyString => false | _ => true end.

(** [Array.prototype.indexOf] with [-1] written as [None]. *)
Fixpoint indexOf (w : string) (l : list string) : option nat :=
  match l with
  | [] => None
  | x :: l' =>
      if String.eqb x w then Some 0%nat
      else option_map S (indexOf w l')
  end.

End Js.

(* ------------------------------------------------------------------ *)
(** ** Candidate enumerator (core.ts)

    Modelled from the spec: [core.ts] is not among the sources.  The spec
    (4.1) fixes the alphabet (36 boundary glyphs [a-z0-9], 37 interior
    glyphs adding [-]), the simple-product count
    [N_1 = 36], [N_L = 36 * 37^(L-2) * 36], mixed-radix decoding with
    "no such name" for sequences containing [--], and [roomNameToIndex]
    as its inverse on legal names ([none] otherwise).  The enumeration is
    lexicographic (first character most significant), as the resume tests
    require ("ablf" follows "able"). *)

Module Enum.

Definition alphabet : list ascii :=
  list_ascii_of_string "abcdefghijklmnopqrstuvwxyz0123456789-".

Definition dash : ascii := "-"%char.

Fixpoint index_of (c : ascii) (l : list ascii) : option Z :=
  match l with
  | [] => None
  | x :: l' => if Ascii.eqb x c then Some 0%Z
               else option_map Z.succ (index_of c l')
  end.

Definition glyph (d : Z) : ascii := nth (Z.to_nat d) alphabet "?"%char.

Definition digit (c : ascii) : Z :=
  match index_of c alphabet with Some d => d | None => 0%Z end.

Definition in_alphabet (c : ascii) : bool :=
  match index_of c alphabet with Some _ => true | None => false end.

Fixpoint has_double_dash (cs : list ascii) : bool :=
  match cs with
  | a :: ((b :: _) as t) =>
      (Ascii.eqb a dash && Ascii.eqb b dash) || has_double_dash t
  | _ => false
  end.

(** The room-name grammar of the spec (section 3): non-empty, characters
    in [a-z0-9-], no [-] at either end, no two adjacent [-]. *)
Definition legal_name (s : string) : bool :=
  let cs := list_ascii_of_string s in
  match cs with
  | [] => false
  | c0 :: _ =>
      forallb in_alphabet cs
      && negb (Ascii.eqb c0 dash)
      && negb (Ascii.eqb (last cs c0) dash)
      && negb (has_double_dash cs)
  end.

(** Radices of the positions, least significant (last character) first. *)
Definition radices (L : nat) : list Z :=
  match L with
  | O => []
  | S O => [36%Z]
  | S (S m) => 36%Z :: repeat 37%Z m ++ [36%Z]
  end.

Definition countNamesForLength (L : nat) : Z :=
  match L with
  | O => 0
  | S O => 36
  | S (S m) => 36 * 37 ^ Z.of_nat m * 36
  end%Z.

(** Mixed-radix digits of [i], least significant first. *)
Fixpoint to_digits (rs : list Z) (i : Z) : list Z :=
  match rs with
  | [] => []
  | r :: rs' => (i mod r)%Z :: to_digits rs' (i / r)%Z
  end.

(** Value of digits (least significant first) under the radices. *)
Fixpoint digits_val (ds rs : list Z) : Z :=
  match ds, rs with
  | d :: ds', r :: rs' => (d + r * digits_val ds' rs')%Z
  | _, _ => 0%Z
  end.

Definition indexToRoomName (L : nat) (i : Z) : option string :=
  if (L =? 0)%nat || (i <? 0)%Z || (countNamesForLength L <=? i)%Z
  then None
  else
    let cs := rev (map glyph (to_digits (radices L) i)) in
    if has_double_dash cs then None else Some (string_of_list_ascii cs).

Definition roomNameToIndex (name : string) : option (nat * Z) :=
  let cs := list_ascii_of_string name in
  if legal_name name
  then Some (List.length cs, digits_val (rev (map digit cs)) (radices (List.length cs)))
  else None.

End Enum.

(* ------------------------------------------------------------------ *)
(** ** Word-list filtering (cracker.ts) *)

Module Words.

Definition between (lo hi : ascii) (c : ascii) : bool :=
  ((nat_of_ascii lo <=? nat_of_ascii c) && (nat_of_ascii c <=? nat_of_ascii hi))%nat.

(** [[a-z0-9]] *)
Definition alnum (c : ascii) : bool :=
  between "a" "z" c || between "0" "9" c.

(** [[a-z0-9-]] *)
Definition valid_char (c : ascii) : bool := alnum c || Ascii.eqb c "-".

(** The regex [.]: any code unit but a line terminator (LF, CR). *)
Definition dot (c : ascii) : bool :=
  negb (Nat.eqb (nat_of_ascii c) 10 || Nat.eqb (nat_of_ascii c) 13).

(** [VALID_CHARS = /^[a-z0-9-]+$/] *)
Definition VALID_CHARS (s : string) : bool :=
  let cs := list_ascii_of_string s in
  negb (Nat.eqb (List.length cs) 0) && forallb valid_char cs.

(** [NO_DASH_AT_ENDS = /^[a-z0-9].*[a-z0-9]$|^[a-z0-9]$/] *)
Definition NO_DASH_AT_ENDS (s : string) : bool :=
  match list_ascii_of_string s with
  | [] => false
  | [c] => alnum c
  | c :: rest =>
      alnum c && alnum (last rest c) && forallb dot (removelast rest)
  end.

(** [NO_CONSECUTIVE_DASHES = /--/] *)
Definition NO_CONSECUTIVE_DASHES (s : string) : bool :=
  Enum.has_double_dash (list_ascii_of_string s).

Definition isValidRoomName (name : string) : bool :=
  if negb (Js.truthy name) || Nat.eqb (String.length name) 0 then false
  else if negb (VALID_CHARS name) then false
  else if (1 <? String.length name)%nat && negb (NO_DASH_AT_ENDS name) then false
  else if NO_CONSECUTIVE_DASHES name then false
  else true.

Definition normalize (w : string) : string := Js.toLowerCase (Js.trim w).

(** [setWordlist(words)] *)
Definition setWordlist (words : list string) : list string :=
  filter isValidRoomName (map normalize words).

(** [loadWordlist(url)] once [fetch] succeeded with body [text]; a failed
    response throws before [this.wordlist] is written. *)
Definition loadWordlist_text (text : string) : list string :=
  let allWords :=
    filter (fun w => negb (Nat.eqb (String.length w) 0))
      (map normalize (Js.split "010"%char text)) in
  filter isValidRoomName allWords.

End Words.

(* ------------------------------------------------------------------ *)
(** ** JavaScript numbers met by the code: [parseInt(s, 16)],
    [n.toString(16)], [padStart(2, '0')] and [===].  A number is
    [option Z], [None] being [NaN]. *)

Module Num.

Definition num := option Z.

(** [===] on numbers: [NaN] equals nothing. *)
Definition num_eq (a b : num) : bool :=
  match a, b with Some x, Some y => Z.eqb x y | _, _ => false end.

Definition hex_val (c : ascii) : option Z :=
  let n := nat_of_ascii c in
  if ((48 <=? n) && (n <=? 57))%nat then Some (Z.of_nat n - 48)%Z
  else if ((97 <=? n) && (n <=? 102))%nat then Some (Z.of_nat n - 87)%Z
  else if ((65 <=? n) && (n <=? 70))%nat then Some (Z.of_nat n - 55)%Z
  else None.

(** Longest prefix of hex digits; [None] when it is empty. *)
Fixpoint hex_prefix (cs : list ascii) (acc : Z) (seen : bool) : option Z :=
  match cs with
  | [] => if seen then Some acc else None
  | c :: cs' =>
      match hex_val c with
      | Some d => hex_prefix cs' (acc * 16 + d)%Z true
      | None => if seen then Some acc else None
      end
  end.

(** [parseInt(s, 16)]: leading white space, an optional sign, an optional
    [0x]/[0X] prefix, then the longest run of hex digits. *)
Definition parseInt16 (s : string) : num :=
  let cs := Js.drop_ws (list_ascii_of_string s) in
  let '(sign, cs1) :=
    match cs with
    | "-"%char :: r => ((-1)%Z, r)
    | "+"%char :: r => (1%Z, r)
    | _ => (1%Z, cs)
    end in
  let cs2 :=
    match cs1 with
    | "0"%char :: x :: r =>
        if Ascii.eqb x "x" || Ascii.eqb x "X" then r else cs1
    | _ => cs1
    end in
  option_map (fun v => sign * v)%Z (hex_prefix cs2 0 false).

Definition hexdig (d : Z) : ascii :=
  nth (Z.to_nat d) (list_ascii_of_string "0123456789abcdef") "0"%char.

Fixpoint to_hex_aux (fuel : nat) (n : Z) (acc : string) : string :=
  match fuel with
  | O => acc
  | S f =>
      let acc' := String (hexdig (n mod 16)) acc in
      if (n <? 16)%Z then acc' else to_hex_aux f (n / 16)%Z acc'
  end.

(** Lower-case hex digits of a non-negative integer ([log2 n + 1] binary
    digits bound the number of hex digits). *)
Definition to_hex (n : Z) : string :=
  to_hex_aux (S (Z.to_nat (Z.log2 n))) n EmptyString.

(** [Number.prototype.toString(16)] *)
Definition toString16 (x : num) : string :=
  match x with
  | None => "NaN"%string
  | Some n => if (n <? 0)%Z then String "-" (to_hex (- n)) else to_hex n
  end.

(** [s.padStart(2, '0')] *)
Definition padStart2 (s : string) : string :=
  match String.length s with
  | O => "00"%string
  | S O => String "0" s
  | _ => s
  end.

(** A byte as two lower-case hex digits. *)
Definition hex2 (b : Z) : string :=
  String (hexdig (b / 16)) (String (hexdig (b mod 16)) EmptyString).

End Num.

Import Num.

(* ------------------------------------------------------------------ *)
(** ** Data of the cracker (types.ts) *)

Inductive resume_type := RDictionary | RBruteforce.

Record CrackOptions := {
  maxLength : option nat;
  startingLength : option nat;
  useDictionary : option bool;
  useTimestampFilter : option bool;
  validSeconds : option Z;
  useUtf8Filter : option bool;
  startFrom : option string;
  startFromType : option resume_type;
  forceCpu : option bool
}.

Record CrackResult := {
  found : bool;
  roomName : option string;
  key : option string;
  decryptedMessage : option (list N);
  aborted : option bool;
  resumeFrom : option string;
  resumeType : option resume_type;
  error : option string
}.

Record DecodedPacket := {
  channelHash : string;
  ciphertext : string;
  cipherMac : string;
  isGroupText : bool
}.

(** What [MeshCorePacketDecoder.decodeWithVerification] yields in
    [decoded.payload?.decoded]; [None] stands for a missing payload and for
    a thrown exception alike (both end in [return null]). *)
Record Payload := {
  p_channelHash : option string;
  p_ciphertext : option string;
  p_cipherMac : option string
}.

(** External collaborators: the crypto-js primitives, the packet decoder
    library, the accelerator backend (gpu-bruteforce.ts, not among the
    sources), the [PUBLIC_KEY] constant of core.ts and the clock. *)
Record Prims := {
  deriveKeyFromRoomName : string -> string;
  keyDigest : string -> Z;
  verifyMac : string -> string -> string -> bool;
  decryptGroupTextMessage : string -> string -> string -> option (Z * list N);
  decodeWithVerification : string -> option Payload;
  gpuRunBatch : num -> nat -> Z -> Z -> option string -> option string -> list Z;
  PUBLIC_KEY : string;
  now : Z
}.

(** Modelled from the spec: [PUBLIC_ROOM_NAME] and [DEFAULT_VALID_SECONDS]
    of core.ts (section 4.5 and the option table). *)
Definition PUBLIC_ROOM_NAME : string := "[[public room]]".
Definition DEFAULT_VALID_SECONDS : Z := 2592000.

Section Core.

Variable P : Prims.

(** Modelled from the spec: [getChannelHash] of core.ts, the least
    significant byte of [H(K)], as two hex digits. *)
Definition getChannelHash (k : string) : string :=
  hex2 (keyDigest P k mod 256)%Z.

(** Modelled from the spec: [isTimestampValid] of core.ts, the timestamp
    lies in [[now - validSeconds, now + validSeconds]]. *)
Definition isTimestampValid (timestamp validSecs : Z) : bool :=
  (now P - validSecs <=? timestamp)%Z && (timestamp <=? now P + validSecs)%Z.

(** Modelled from the spec: [isValidUtf8] of core.ts, no U+FFFD. *)
Definition isValidUtf8 (message : list N) : bool :=
  negb (existsb (N.eqb 65533) message).

(** [CpuBruteForce.runBatch] *)
Definition zrange (n : Z) : list Z := map Z.of_nat (seq 0 (Z.to_nat n)).

Definition runBatch (targetChannelHash : num) (nameLength : nat)
    (batchOffset batchSize : Z) (ciphertextHex targetMacHex : option string)
    : list Z :=
  let targetHashHex := padStart2 (toString16 targetChannelHash) in
  let verifyMacEnabled :=
    match ciphertextHex, targetMacHex with
    | Some c, Some m => Js.truthy c && Js.truthy m
    | _, _ => false
    end in
  fold_left
    (fun matches i =>
       let nameIdx := (batchOffset + i)%Z in
       match Enum.indexToRoomName nameLength nameIdx with
       | None => matches
       | Some roomName =>
           let k := deriveKeyFromRoomName P ("#" ++ roomName) in
           if negb (String.eqb (getChannelHash k) targetHashHex) then matches
           else if verifyMacEnabled
                   && negb (verifyMac P (match ciphertextHex with Some c => c | None => ""%string end)
                                       (match targetMacHex with Some m => m | None => ""%string end) k)
           then matches
           else matches ++ [nameIdx]
       end)
    (zrange batchSize) [].

(** [GroupTextCracker.decodePacket] *)
Definition is_hex_digit (c : ascii) : bool :=
  match hex_val c with Some _ => true | None => false end.

Definition strip_0x (cs : list ascii) : list ascii :=
  match cs with
  | "0"%char :: x :: r => if Ascii.eqb x "x" || Ascii.eqb x "X" then r else cs
  | _ => cs
  end.

Definition decodePacket (packetHex : string) : option DecodedPacket :=
  let cleanHex :=
    string_of_list_ascii
      (strip_0x (filter (fun c => negb (Js.is_ws c))
                        (list_ascii_of_string (Js.trim packetHex)))) in
  if negb (Js.truthy cleanHex)
     || negb (forallb is_hex_digit (list_ascii_of_string cleanHex))
  then None
  else
    match decodeWithVerification P cleanHex with
    | None => None
    | Some p =>
        match p_channelHash p, p_ciphertext p, p_cipherMac p with
        | Some h, Some c, Some m =>
            if Js.truthy h && Js.truthy c && Js.truthy m
            then Some {| channelHash := h; ciphertext := c; cipherMac := m;
                         isGroupText := true |}
            else None
        | _, _, _ => None
        end
    end.

End Core.

(* ------------------------------------------------------------------ *)
(** ** The search orchestrator: [GroupTextCracker.crack]

    State threaded through a call: the number of reads of [abortFlag] so
    far, the trace of candidates inspected, and the accelerator instance
    that persists in the cracker between calls.  [abort()] runs in another
    task and is seen only when the code reads [abortFlag]; the environment
    gives the value of the flag at each read.  Timing (progress reports,
    the dispatch time behind the auto-tuned batch size) is environment
    data as well. *)

Inductive gpu_state := GpuAbsent | GpuReady | GpuFailed.

Inductive event :=
  | EvPublic                                  (* Phase A candidate tried *)
  | EvDict (i : nat) (w : string)             (* dictionary word i tested *)
  | EvBatch (cpu : bool) (L : nat) (offset size : Z).  (* executor call *)

Record St := { checks : nat; trace : list event; gpu : gpu_state }.

Record Env := {
  abort_at : nat -> bool;
  gpu_init_ok : bool;
  gpu_tuned_batch : Z
}.

Definition M (A : Type) : Type := St -> A * St.
Definition ret {A} (a : A) : M A := fun s => (a, s).
Definition bind {A B} (m : M A) (f : A -> M B) : M B :=
  fun s => let (a, s') := m s in f a s'.
Notation "x <- m ;; k" := (bind m (fun x => k))
  (at level 61, m at next level, right associativity).

Definition emit (e : event) : M unit :=
  fun s => (tt, {| checks := checks s; trace := trace s ++ [e]; gpu := gpu s |}).

Definition readAbort (env : Env) : M bool :=
  fun s => (abort_at env (checks s),
            {| checks := S (checks s); trace := trace s; gpu := gpu s |}).

Definition no_result : CrackResult :=
  {| found := false; roomName := None; key := None; decryptedMessage := None;
     aborted := None; resumeFrom := None; resumeType := None; error := None |}.

Definition invalid_packet_result : CrackResult :=
  {| found := false; roomName := None; key := None; decryptedMessage := None;
     aborted := None; resumeFrom := None; resumeType := None;
     error := Some "Invalid packet or not a GroupText packet"%string |}.

(** [x || undefined] for a string that may be [null]. *)
Definition or_undefined (x : option string) : option string :=
  match x with Some s => if Js.truthy s then Some s else None | None => None end.

Definition aborted_result (pos : option string) (t : resume_type) : CrackResult :=
  {| found := false; roomName := None; key := None; decryptedMessage := None;
     aborted := Some true; resumeFrom := pos; resumeType := Some t;
     error := None |}.

Definition found_result (name k : string) (msg : option (list N))
    (resume : option (string * resume_type)) : CrackResult :=
  {| found := true; roomName := Some name; key := Some k;
     decryptedMessage := msg; aborted := None;
     resumeFrom := option_map fst resume; resumeType := option_map snd resume;
     error := None |}.

(** The "Not found" result. *)
Definition exhausted_result (pos : option string) : CrackResult :=
  {| found := false; roomName := None; key := None; decryptedMessage := None;
     aborted := None; resumeFrom := pos; resumeType := Some RBruteforce;
     error := None |}.

Definition opt {A} (d : A) (x : option A) : A :=
  match x with Some a => a | None => d end.

Section Crack.

Variable P : Prims.
Variable env : Env.

(** [verifyMacAndFilters]: [Some message] for [{ valid: true, message }]. *)
Definition verifyMacAndFilters (useTs useUtf8 : bool) (validSecs : Z)
    (ct mac k : string) : option (list N) :=
  if negb (verifyMac P ct mac k) then None
  else
    match decryptGroupTextMessage P ct mac k with
    | None => None
    | Some (timestamp, message) =>
        if useTs && negb (isTimestampValid P timestamp validSecs) then None
        else if useUtf8 && negb (isValidUtf8 message) then None
        else Some message
    end.

Section Search.

Variable vmf : string -> option (list N).
Variable target : num.
Variable wordlist : list string.
Variable useCpu : bool.
Variable ct mac : string.

(** Phase 2: the dictionary loop from index [i]. *)
Fixpoint dict_loop (fuel : nat) (i : nat) : M (option CrackResult) :=
  match fuel with
  | O => ret None
  | S f =>
      match nth_error wordlist i with
      | None => ret None
      | Some word =>
          ab <- readAbort env ;;
          if ab then ret (Some (aborted_result (Some word) RDictionary))
          else
            _ <- emit (EvDict i word) ;;
            let k := deriveKeyFromRoomName P ("#" ++ word) in
            if num_eq (parseInt16 (getChannelHash P k)) target then
              match vmf k with
              | Some m => ret (Some (found_result word k (Some m)
                                       (Some (word, RDictionary))))
              | None => dict_loop f (S i)
              end
            else dict_loop f (S i)
      end
  end.

(** The selected backend's [runBatch]. *)
Definition executor (L : nat) (offset bs : Z) : list Z :=
  if useCpu then runBatch P target L offset bs (Some ct) (Some mac)
  else gpuRunBatch P target L offset bs (Some ct) (Some mac).

(** Dispatch one batch to the selected backend. *)
Definition dispatch (L : nat) (offset bs : Z) : M (list Z) :=
  _ <- emit (EvBatch useCpu L offset bs) ;;
  ret (executor L offset bs).

(** The [for (const matchIdx of matches)] loop. *)
Fixpoint check_matches (L : nat) (matches : list Z) : option CrackResult :=
  match matches with
  | [] => None
  | matchIdx :: rest =>
      match Enum.indexToRoomName L matchIdx with
      | None => check_matches L rest
      | Some name =>
          let k := deriveKeyFromRoomName P ("#" ++ name) in
          match vmf k with
          | Some m => Some (found_result name k (Some m) (Some (name, RBruteforce)))
          | None => check_matches L rest
          end
      end
  end.

Definition INITIAL_BATCH_SIZE : Z := if useCpu then 1024 else 32768.

(** Phase 3, the [while (offset < totalForLength)] loop of one length;
    [inr] carries [currentBatchSize] and [batchSizeTuned] on. *)
Fixpoint bf_offsets (fuel : nat) (L : nat) (total offset cur : Z) (tuned : bool)
    : M (CrackResult + (Z * bool)) :=
  match fuel with
  | O => ret (inr (cur, tuned))
  | S f =>
      if (offset <? total)%Z then
        ab <- readAbort env ;;
        if ab then
          ret (inl (aborted_result (or_undefined (Enum.indexToRoomName L offset))
                                   RBruteforce))
        else
          let bs := Z.min cur (total - offset) in
          matches <- dispatch L offset bs ;;
          let '(cur', tuned') :=
            if negb useCpu && negb tuned && (INITIAL_BATCH_SIZE <=? bs)%Z
            then (Z.max INITIAL_BATCH_SIZE (gpu_tuned_batch env), true)
            else (cur, tuned) in
          match check_matches L matches with
          | Some r => ret (inl r)
          | None => bf_offsets f L total (offset + bs) cur' tuned'
          end
      else ret (inr (cur, tuned))
  end.

(** Phase 3, the [for (length = startFromLength; length <= maxLength; ...)]
    loop. *)
Fixpoint bf_lengths (fuel : nat) (L maxL startL : nat) (startOff cur : Z)
    (tuned : bool) : M (option CrackResult) :=
  match fuel with
  | O => ret None
  | S f =>
      if (L <=? maxL)%nat then
        ab <- readAbort env ;;
        if ab then
          ret (Some (aborted_result (or_undefined (Enum.indexToRoomName L 0))
                                    RBruteforce))
        else
          let total := Enum.countNamesForLength L in
          let offset := if (L =? startL)%nat then startOff else 0%Z in
          r <- bf_offsets (Z.to_nat (total - offset)) L total offset cur tuned ;;
          match r with
          | inl res => ret (Some res)
          | inr (cur', tuned') => bf_lengths f (S L) maxL startL startOff cur' tuned'
          end
      else ret None
  end.

End Search.

(** Backend selection; [true] means [this.useCpu]. *)
Definition init_backend (force : bool) : M bool :=
  fun s =>
    if force then (true, s)
    else match gpu s with
         | GpuAbsent =>
             if gpu_init_ok env
             then (false, {| checks := checks s; trace := trace s; gpu := GpuReady |})
             else (true, {| checks := checks s; trace := trace s; gpu := GpuFailed |})
         | _ => (false, s)
         end.

(** Starting position: [(startFromLength, startFromOffset,
    dictionaryStartIndex, skipDictionary)]. *)
Definition resume_setup (wordlist : list string) (startingLen : nat)
    (o : CrackOptions) : nat * Z * nat * bool :=
  match startFrom o with
  | Some sf =>
      if Js.truthy sf then
        let normalizedStartFrom := Js.toLowerCase sf in
        match opt RBruteforce (startFromType o) with
        | RDictionary =>
            match Js.indexOf normalizedStartFrom wordlist with
            | Some wordIndex => (startingLen, 0%Z, S wordIndex, false)
            | None => (startingLen, 0%Z, 0%nat, false)
            end
        | RBruteforce =>
            match Enum.roomNameToIndex normalizedStartFrom with
            | Some (len, index) =>
                let l := Nat.max startingLen len in
                let off := (index + 1)%Z in
                if (Enum.countNamesForLength l <=? off)%Z
                then (S l, 0%Z, 0%nat, true)
                else (l, off, 0%nat, true)
            | None => (startingLen, 0%Z, 0%nat, true)
            end
        end
      else (startingLen, 0%Z, 0%nat, false)
  | None => (startingLen, 0%Z, 0%nat, false)
  end.

Definition crack (wordlist : list string) (packetHex : string)
    (o : CrackOptions) : M CrackResult :=
  let useTs := opt true (useTimestampFilter o) in
  let useUtf8 := opt true (useUtf8Filter o) in
  let validSecs := opt DEFAULT_VALID_SECONDS (validSeconds o) in
  let maxL := opt 8%nat (maxLength o) in
  let startingLen := opt 1%nat (startingLength o) in
  let useDict := opt true (useDictionary o) in
  match decodePacket P (Js.toLowerCase packetHex) with
  | None => ret invalid_packet_result
  | Some d =>
      let target := parseInt16 (channelHash d) in
      useCpu <- init_backend (opt false (forceCpu o)) ;;
      let '(startL, startOff, dictStart, skipDict) :=
        resume_setup wordlist startingLen o in
      let vmf := verifyMacAndFilters useTs useUtf8 validSecs
                   (ciphertext d) (cipherMac d) in
      rA <- (if negb skipDict && (dictStart =? 0)%nat
                && (startL =? startingLen)%nat && (startOff =? 0)%Z
             then
               _ <- emit EvPublic ;;
               if String.eqb (channelHash d) (getChannelHash P (PUBLIC_KEY P))
               then match vmf (PUBLIC_KEY P) with
                    | Some m => ret (Some (found_result PUBLIC_ROOM_NAME
                                             (PUBLIC_KEY P) (Some m) None))
                    | None => ret None
                    end
               else ret None
             else ret None) ;;
      match rA with
      | Some r => ret r
      | None =>
      rB <- (if useDict && negb skipDict && (0 <? List.length wordlist)%nat
             then dict_loop vmf target wordlist (List.length wordlist) dictStart
             else ret None) ;;
      match rB with
      | Some r => ret r
      | None =>
      rC <- bf_lengths vmf target useCpu (ciphertext d) (cipherMac d)
              (S maxL) startL maxL startL startOff
              (INITIAL_BATCH_SIZE useCpu) false ;;
      match rC with
      | Some r => ret r
      | None =>
          let lastPos := Enum.indexToRoomName maxL
                           (Enum.countNamesForLength maxL - 1)%Z in
          ret (exhausted_result (or_undefined lastPos))
      end
      end
      end
  end.

End Crack.

(* ------------------------------------------------------------------ *)
(** ** Progress accounting of [crack]

    [totalCandidates] as [crack] computes it before Phase 1.  The counter
    [totalChecked] grows by one for every dictionary word whose test did
    not return, and by [batchSize] after every executor call; over a run
    that ends without returning early it is the weight of the trace. *)

Definition totalCandidates (useDict skipDict : bool) (wordlistLength dictStart : nat)
    (startL maxL : nat) (startOff : Z) : Z :=
  let fromDict :=
    if useDict && negb skipDict && (0 <? wordlistLength)%nat
    then (Z.of_nat wordlistLength - Z.of_nat dictStart)%Z else 0%Z in
  let withBf :=
    fold_left (fun acc l => acc + Enum.countNamesForLength l)%Z
      (seq startL (S maxL - startL)) fromDict in
  (withBf - startOff)%Z.

Definition event_checked (e : event) : Z :=
  match e with
  | EvPublic => 0
  | EvDict _ _ => 1
  | EvBatch _ _ _ bs => bs
  end%Z.

Definition totalChecked (evs : list event) : Z :=
  fold_right (fun e acc => event_checked e + acc)%Z 0%Z evs.

(* ------------------------------------------------------------------ *)
(** ** The build-time word list (scripts/build-wordlist.js) *)

Module BuildWordlist.

(** [rawWords.split(/\r?\n/)] *)
Fixpoint split_lines_aux (cs cur : list ascii) : list string :=
  match cs with
  | [] => [string_of_list_ascii (rev cur)]
  | "013"%char :: "010"%char :: cs' =>
      string_of_list_ascii (rev cur) :: split_lines_aux cs' []
  | "010"%char :: cs' => string_of_list_ascii (rev cur) :: split_lines_aux cs' []
  | c :: cs' => split_lines_aux cs' (c :: cur)
  end.

Definition split_lines (s : string) : list string :=
  split_lines_aux (list_ascii_of_string s) [].

(** [validRoomName = /^[a-z0-9]([a-z0-9-]*[a-z0-9])?$/] *)
Definition validRoomName (w : string) : bool :=
  match list_ascii_of_string w with
  | [] => false
  | c :: rest =>
      Words.alnum c
      && match rest with
         | [] => true
         | _ :: _ => forallb Words.valid_char (removelast rest)
                     && Words.alnum (last rest c)
         end
  end.

(** The [words] written to [ENGLISH_WORDLIST]. *)
Definition words (rawWords : string) : list string :=
  filter (fun w => (0 <? String.length w)%nat && validRoomName w
                   && negb (Enum.has_double_dash (list_ascii_of_string w)))
    (map Words.normalize (split_lines rawWords)).

End BuildWordlist.

(* ------------------------------------------------------------------ *)
(** ** [DictionaryIndex] (the class at the end of scripts/build-wordlist.js)

    [byHash] is the [Map] as the list of its entries in insertion order.
    A bucket array is only ever extended in place by [push], and no
    reference to it escapes except through [lookup]; the list of entries
    is therefore updated by value. *)

Module Dict.

Record IndexedWord := { word : string; key : string }.

Record DictionaryIndex := {
  byHash : list (Z * list IndexedWord);
  totalWords : nat
}.

(** [Map.prototype.get]; [NaN] is never a key of this map. *)
Fixpoint map_get {V} (m : list (Z * V)) (k : num) : option V :=
  match m with
  | [] => None
  | (k', v) :: m' => if num_eq (Some k') k then Some v else map_get m' k
  end.

(** [map.get(k)!.push(x)]; [None] when there is no bucket for [k] and
    [.push] throws on [undefined]. *)
Fixpoint map_push (m : list (Z * list IndexedWord)) (k : num) (x : IndexedWord)
    : option (list (Z * list IndexedWord)) :=
  match m with
  | [] => None
  | (k', v) :: m' =>
      if num_eq (Some k') k then Some ((k', v ++ [x]) :: m')
      else option_map (cons (k', v)) (map_push m' k x)
  end.

(** [new DictionaryIndex()]: buckets [0 .. 255], all empty. *)
Definition new_index : DictionaryIndex :=
  {| byHash := map (fun i => (Z.of_nat i, [])) (seq 0 256); totalWords := 0 |}.

Section Build.

Variable P : Prims.

(** The loop of [build] from word [i] of [n]; the [onProgress] calls are
    returned in order. *)
Fixpoint build_loop (ws : list string) (i n : nat) (onProgress : bool)
    (m : list (Z * list IndexedWord))
    : option (list (Z * list IndexedWord) * list (nat * nat)) :=
  match ws with
  | [] => Some (m, [])
  | w :: ws' =>
      let k := deriveKeyFromRoomName P ("#" ++ w) in
      let channelHashHex := getChannelHash P k in
      let channelHash := parseInt16 channelHashHex in
      match map_push m channelHash {| word := w; key := k |} with
      | None => None
      | Some m' =>
          let report := if onProgress && (i mod 10000 =? 0)%nat then [(i, n)] else [] in
          match build_loop ws' (S i) n onProgress m' with
          | None => None
          | Some (m'', reports) => Some (m'', report ++ reports)
          end
      end
  end.

(** [build(words, onProgress)]: the index afterwards and the progress
    calls; [None] when the call throws. *)
Definition build (d : DictionaryIndex) (ws : list string) (onProgress : bool)
    : option (DictionaryIndex * list (nat * nat)) :=
  match build_loop ws 0 (List.length ws) onProgress (byHash d) with
  | None => None
  | Some (m, reports) =>
      Some ({| byHash := m; totalWords := List.length ws |},
            reports ++ (if onProgress then [(List.length ws, List.length ws)] else []))
  end.

End Build.

(** [lookup(channelHash)]: [this.byHash.get(channelHash) ?? []]. *)
Definition lookup (d : DictionaryIndex) (channelHash : num) : list IndexedWord :=
  match map_get (byHash d) channelHash with Some v => v | None => [] end.

(** [size()] *)
Definition size (d : DictionaryIndex) : nat := totalWords d.

Record Stats := {
  total : nat;
  buckets : nat;
  avgPerBucket : QArith_base.Q;
  maxBucket : nat
}.

(** [getStats()]; [avgPerBucket] is the exact quotient. *)
Definition getStats (d : DictionaryIndex) : Stats :=
  let '(maxB, nonEmpty) :=
    fold_left (fun '(maxB, nonEmpty) (e : Z * list IndexedWord) =>
                 let ws := snd e in
                 if (0 <? List.length ws)%nat
                 then (Nat.max maxB (List.length ws), S nonEmpty)
                 else (maxB, nonEmpty))
              (byHash d) (0%nat, 0%nat) in
  {| total := totalWords d; buckets := nonEmpty;
     avgPerBucket := QArith_base.Qmake (Z.of_nat (totalWords d)) 256;
     maxBucket := maxB |}.

End Dict.

(* ------------------------------------------------------------------ *)
(** ** A concrete instance, used to run the model on explicit inputs

    The key of a name is the name itself; only the key ["#bb"] has the
    channel-hash byte [0x07]; every MAC verifies and every ciphertext
    decrypts to ["foo"] at time [0]; the decoder reads every packet as
    channel hash ["07"]; the accelerator reports no match. *)

Module Demo.
Open Scope string_scope.

Definition prims : Prims := {|
  deriveKeyFromRoomName := fun s => s;
  keyDigest := fun k => if String.eqb k "#bb" then 7%Z else 0%Z;
  verifyMac := fun _ _ _ => true;
  decryptGroupTextMessage := fun _ _ _ => Some (0%Z, [102; 111; 111]%N);
  decodeWithVerification := fun _ =>
    Some {| p_channelHash := Some "07"; p_ciphertext := Some "aa";
            p_cipherMac := Some "bbbb" |};
  gpuRunBatch := fun _ _ _ _ _ _ => [];
  PUBLIC_KEY := "pub";
  now := 0%Z
|}.

(** The same instance with the key of ["#bb"] as the public key, so
    that the packet's channel byte is the public room's. *)
Definition prims_public : Prims := {|
  deriveKeyFromRoomName := deriveKeyFromRoomName prims;
  keyDigest := keyDigest prims;
  verifyMac := verifyMac prims;
  decryptGroupTextMessage := decryptGroupTextMessage prims;
  decodeWithVerification := decodeWithVerification prims;
  gpuRunBatch := gpuRunBatch prims;
  PUBLIC_KEY := "#bb";
  now := now prims
|}.

(** The abort flag reads [true] exactly at the reads listed. *)
Definition env (aborts : list nat) : Env :=
  {| abort_at := fun n => existsb (Nat.eqb n) aborts;
     gpu_init_ok := false; gpu_tuned_batch := 0%Z |}.

Definition st0 : St := {| checks := 0; trace := []; gpu := GpuAbsent |}.

Definition options (maxL startL : nat) (sf : option string)
    (t : option resume_type) : CrackOptions :=
  {| maxLength := Some maxL; startingLength := Some startL;
     useDictionary := None; useTimestampFilter := Some false;
     validSeconds := None; useUtf8Filter := None; startFrom := sf;
     startFromType := t; forceCpu := Some true |}.

Definition words : list string := ["aa"; "bb"; "cc"].

Definition packet : string := "1500".

End Demo.

(* ------------------------------------------------------------------ *)
(** ** Vocabulary of the statements *)

(** MAC verification as [runBatch] enables it: both hex strings given and
    non-empty ([!!(ciphertextHex && targetMacHex)]). *)
Definition mac_ok (P : Prims) (ct mac : option string) (k : string) : Prop :=
  match ct, mac with
  | Some c, Some m => Js.truthy c && Js.truthy m = true -> verifyMac P c m k = true
  | _, _ => True
  end.

(** The spec's executor contract read literally: the within-batch indices
    [i] of the candidates that pass. *)
Definition contract_indices (P : Prims) (t : num) (L : nat) (off bs : Z)
    (ct mac : option string) : list Z :=
  filter (fun i =>
            match Enum.indexToRoomName L (off + i) with
            | None => false
            | Some name =>
                let k := deriveKeyFromRoomName P ("#" ++ name) in
                num_eq t (Some (keyDigest P k mod 256)%Z)
                && match ct, mac with
                   | Some c, Some m => negb (Js.truthy c && Js.truthy m) || verifyMac P c m k
                   | _, _ => true
                   end
            end)
         (zrange bs).

(** The first executor call of a trace, as (length, offset). *)
Fixpoint first_batch (evs : list event) : option (nat * Z) :=
  match evs with
  | [] => None
  | EvBatch _ L off _ :: _ => Some (L, off)
  | _ :: evs' => first_batch evs'
  end.

Definition is_batch (e : event) : Prop :=
  match e with EvBatch _ _ _ _ => True | _ => False end.

Definition is_dict (e : event) : Prop :=
  match e with EvDict _ _ => True | _ => False end.

(** Executor calls of a brute-force phase started at [(L0, off0)]: the
    first call, if any, is at [(L0, off0)] when [off0] is inside the
    length's space, and at offset [0] of a length [>= L0] when
    [off0 = 0]. *)
Definition batches_from (L0 : nat) (off0 : Z) (evs : list event) : Prop :=
  Forall is_batch evs
  /\ ((off0 < Enum.countNamesForLength L0)%Z ->
      evs = [] \/ exists c bs rest, evs = EvBatch c L0 off0 bs :: rest)
  /\ (off0 = 0%Z ->
      evs = [] \/ exists c L' bs rest, evs = EvBatch c L' 0 bs :: rest /\ (L0 <= L')%nat).

(** The same options without a resume position. *)
Definition with_no_start (o : CrackOptions) : CrackOptions :=
  {| maxLength := maxLength o; startingLength := startingLength o;
     useDictionary := useDictionary o; useTimestampFilter := useTimestampFilter o;
     validSeconds := validSeconds o; useUtf8Filter := useUtf8Filter o;
     startFrom := None; startFromType := startFromType o;
     forceCpu := forceCpu o |}.

(** [m] returns a value satisfying [Q], from every state. *)
Definition returns {A} (m : M A) (Q : A -> Prop) : Prop :=
  forall s, Q (fst (m s)).

(** [m] appends events [evs] to the trace, and [Q] holds of its value
    and of [evs]. *)
Definition appends {A} (m : M A) (Q : A -> list event -> Prop) : Prop :=
  forall s, exists evs, trace (snd (m s)) = trace s ++ evs /\ Q (fst (m s)) evs.

(** The candidate filter that [crack] builds for the decoded packet [d]. *)
Definition filters_of (P : Prims) (o : CrackOptions) (d : DecodedPacket)
    : string -> option (list N) :=
  verifyMacAndFilters P (opt true (useTimestampFilter o))
    (opt true (useUtf8Filter o)) (opt DEFAULT_VALID_SECONDS (validSeconds o))
    (ciphertext d) (cipherMac d).

(** A dictionary hit: the word's key has the target hash and passes
    the filter. *)
Definition dict_found (P : Prims) (vmf : string -> option (list N))
    (target : num) (r : CrackResult) : Prop :=
  exists word m,
    num_eq (parseInt16 (getChannelHash P (deriveKeyFromRoomName P ("#" ++ word))))
      target = true
    /\ vmf (deriveKeyFromRoomName P ("#" ++ word)) = Some m
    /\ r = found_result word (deriveKeyFromRoomName P ("#" ++ word)) (Some m)
             (Some (word, RDictionary)).

(** A brute-force hit: an index reported by the executor names a room
    whose key passes the filter. *)
Definition bf_found (P : Prims) (vmf : string -> option (list N)) (target : num)
    (useCpu : bool) (ct mac : string) (r : CrackResult) : Prop :=
  exists L off bs idx name m,
    In idx (executor P target useCpu ct mac L off bs)
    /\ Enum.indexToRoomName L idx = Some name
    /\ vmf (deriveKeyFromRoomName P ("#" ++ name)) = Some m
    /\ r = found_result name (deriveKeyFromRoomName P ("#" ++ name)) (Some m)
             (Some (name, RBruteforce)).

(** The results [crack] can return for a packet that decodes to [d]. *)
Definition crack_outcome (P : Prims) (o : CrackOptions) (d : DecodedPacket)
    (r : CrackResult) : Prop :=
  let vmf := filters_of P o d in
  let target := parseInt16 (channelHash d) in
  (exists m, vmf (PUBLIC_KEY P) = Some m
             /\ r = found_result PUBLIC_ROOM_NAME (PUBLIC_KEY P) (Some m) None)
  \/ (exists w, r = aborted_result (Some w) RDictionary)
  \/ dict_found P vmf target r
  \/ (exists pos, r = aborted_result pos RBruteforce)
  \/ (exists useCpu, bf_found P vmf target useCpu (ciphertext d) (cipherMac d) r)
  \/ (exists pos, r = exhausted_result pos).

(** The test [runBatch] applies to the absolute index [nameIdx]. *)
Definition runBatch_test (P : Prims) (t : num) (L : nat) (ct mac : option string)
    (nameIdx : Z) : bool :=
  match Enum.indexToRoomName L nameIdx with
  | None => false
  | Some roomName =>
      let k := deriveKeyFromRoomName P ("#" ++ roomName) in
      String.eqb (getChannelHash P k) (padStart2 (toString16 t))
      && negb (match ct, mac with
               | Some c, Some m => Js.truthy c && Js.truthy m
               | _, _ => false
               end
               && negb (verifyMac P (opt ""%string ct) (opt ""%string mac) k))
  end.

(** A string with its white space removed. *)
Definition strip_ws (s : string) : string :=
  string_of_list_ascii (filter (fun c => negb (Js.is_ws c)) (list_ascii_of_string s)).

(** The entries a built index holds for the byte [h]: the words whose
    key has channel-hash byte [h], in order, with their keys. *)
Definition indexed_bucket (P : Prims) (ws : list string) (h : num) : list Dict.IndexedWord :=
  map (fun w => {| Dict.word := w; Dict.key := deriveKeyFromRoomName P ("#" ++ w) |})
    (filter (fun w => num_eq
                        (Some (keyDigest P (deriveKeyFromRoomName P ("#" ++ w)) mod 256)%Z) h)
            ws).

(** Candidates left in lengths [L .. maxL] of a brute force that starts
    at offset [startOff] of [startL]. *)
Definition bf_remaining (L maxL startL : nat) (startOff : Z) : Z :=
  fold_right (fun l acc => Enum.countNamesForLength l
                           - (if (l =? startL)%nat then startOff else 0) + acc)%Z
    0%Z (seq L (S maxL - L)).

(** The characters [decodePacket] keeps when it removes white space. *)
Definition not_ws (c : ascii) : bool := negb (Js.is_ws c).

(** The buckets of a dictionary index, as (byte, words) entries. *)
Definition dict_entries := list (Z * list Dict.IndexedWord).

(** Every byte [0 .. 255] has exactly one bucket. *)
Definition covers_bytes (m : dict_entries) : Prop :=
  NoDup (map fst m) /\ forall z, (0 <= z < 256)%Z -> In z (map fst m).

(** Sum of the bucket sizes. *)
Definition bucket_sizes (m : dict_entries) : nat :=
  fold_right (fun e acc => List.length (snd e) + acc)%nat 0%nat m.

(* ================================================================== *)
(** * Properties *)

(** ** The enumerator *)

Module EnumFacts.
Import Enum.

Definition fits (d r : Z) : Prop := (0 <= d < r)%Z.

Lemma index_of_spec (c : ascii) (l : list ascii) (d : Z) :
  index_of c l = Some d ->
  (0 <= d)%Z /\ nth (Z.to_nat d) l "?"%char = c.
Proof.
  revert d; induction l as [|x l IH]; simpl; intros d H; [discriminate|].
  destruct (Ascii.eqb x c) eqn:E.
  - injection H as <-. apply Ascii.eqb_eq in E. split; [lia | exact E].
  - destruct (index_of c l) as [d'|] eqn:E'; simpl in H; [|discriminate].
    injection H as <-. destruct (IH d' eq_refl) as [H0 H1].
    split; [lia|]. rewrite Z2Nat.inj_succ by lia. exact H1.
Qed.

Lemma index_of_bound (c : ascii) (l : list ascii) (d : Z) :
  index_of c l = Some d -> (d < Z.of_nat (List.length l))%Z.
Proof.
  revert d; induction l as [|x l IH]; simpl; intros d H; [discriminate|].
  destruct (Ascii.eqb x c); [injection H as <-; lia|].
  destruct (index_of c l) as [d'|]; simpl in H; [|discriminate].
  injection H as <-. specialize (IH d' eq_refl). lia.
Qed.

Lemma glyph_digit (c : ascii) :
  in_alphabet c = true -> glyph (digit c) = c /\ (0 <= digit c < 37)%Z.
Proof.
  unfold in_alphabet, digit, glyph.
  destruct (index_of c alphabet) as [d|] eqn:E; [intros _|discriminate].
  destruct (index_of_spec _ _ _ E) as [H0 H1].
  pose proof (index_of_bound _ _ _ E) as H2.
  split; [exact H1|]. split; [exact H0|]. exact H2.
Qed.

Lemma digit_dash (c : ascii) :
  in_alphabet c = true -> (digit c = 36%Z <-> c = dash).
Proof.
  intros Hc. destruct (glyph_digit c Hc) as [Hg _]. split.
  - intros Hd. rewrite <- Hg, Hd. reflexivity.
  - intros ->. reflexivity.
Qed.

Lemma digit_boundary (c : ascii) :
  in_alphabet c = true -> Ascii.eqb c dash = false -> (0 <= digit c < 36)%Z.
Proof.
  intros Hc Hd. destruct (glyph_digit c Hc) as [_ B].
  assert (digit c <> 36%Z).
  { intros E. apply (digit_dash c Hc) in E. subst. discriminate. }
  lia.
Qed.

Lemma to_digits_val (ds rs : list Z) :
  Forall2 fits ds rs -> to_digits rs (digits_val ds rs) = ds.
Proof.
  induction 1 as [|d r ds rs Hd _ IH]; [reflexivity|].
  unfold fits in Hd. simpl. f_equal.
  - rewrite (Z.mul_comm r), Z_mod_plus_full. apply Z.mod_small; lia.
  - rewrite (Z.mul_comm r), Z_div_plus_full by lia.
    rewrite (Z.div_small d r) by lia. simpl. exact IH.
Qed.

Lemma digits_val_bounds (ds rs : list Z) :
  Forall2 fits ds rs ->
  (0 <= digits_val ds rs < fold_right Z.mul 1 rs)%Z.
Proof.
  induction 1 as [|d r ds rs Hd _ IH]; simpl; [lia|].
  unfold fits in Hd. nia.
Qed.

Lemma prod_repeat (m : nat) :
  fold_right Z.mul 1%Z (repeat 37%Z m ++ [36%Z]) = (37 ^ Z.of_nat m * 36)%Z.
Proof.
  induction m as [|m IH]; [reflexivity|].
  change (fold_right Z.mul 1%Z (repeat 37%Z (S m) ++ [36%Z]))
    with (37 * fold_right Z.mul 1%Z (repeat 37%Z m ++ [36%Z]))%Z.
  rewrite IH, Nat2Z.inj_succ, Z.pow_succ_r by lia. ring.
Qed.

Lemma radices_prod (L : nat) :
  fold_right Z.mul 1%Z (radices L) = countNamesForLength L \/ L = O.
Proof.
  destruct L as [|[|m]]; [right; reflexivity|left; reflexivity|left].
  simpl radices. change (36 * fold_right Z.mul 1%Z (repeat 37%Z m ++ [36%Z])
                         = countNamesForLength (S (S m)))%Z.
  rewrite prod_repeat. unfold countNamesForLength. ring.
Qed.

Lemma radices_palindrome (L : nat) : rev (radices L) = radices L.
Proof.
  destruct L as [|[|m]]; try reflexivity. simpl.
  rewrite rev_app_distr, rev_repeat. reflexivity.
Qed.

Lemma Forall2_rev' {A B} (R : A -> B -> Prop) (l1 : list A) (l2 : list B) :
  Forall2 R l1 l2 -> Forall2 R (rev l1) (rev l2).
Proof.
  induction 1; simpl; [constructor|].
  apply Forall2_app; [assumption|]. repeat constructor; assumption.
Qed.

Lemma length_list_ascii (s : string) :
  List.length (list_ascii_of_string s) = String.length s.
Proof. induction s; simpl; auto. Qed.

(** The digits of a legal name fit the radices of its length. *)
Lemma legal_fits (s : string) :
  legal_name s = true ->
  let cs := list_ascii_of_string s in
  Forall2 fits (map digit cs) (radices (List.length cs))
  /\ Forall (fun c => in_alphabet c = true) cs
  /\ has_double_dash cs = false.
Proof.
  unfold legal_name. cbv zeta.
  destruct (list_ascii_of_string s) as [|c0 rest] eqn:Hs; [discriminate|].
  intros H. apply andb_prop in H as [H Hdd]. apply andb_prop in H as [H Hl].
  apply andb_prop in H as [Hall H0].
  apply negb_true_iff in Hdd, Hl, H0.
  assert (Hin : Forall (fun c => in_alphabet c = true) (c0 :: rest)).
  { apply Forall_forall. intros x Hx. apply forallb_forall with (x := x) in Hall; assumption. }
  split; [|split; assumption].
  inversion Hin as [|? ? Hc0 Hrest]; subst.
  destruct rest as [|c1 rest'].
  - simpl. constructor; [|constructor]. apply digit_boundary; assumption.
  - destruct (exists_last (l := c1 :: rest') ltac:(discriminate)) as [mid [cl Hml]].
    rewrite Hml in *.
    assert (Hlast : Ascii.eqb cl dash = false).
    { change (last (c0 :: mid ++ [cl]) c0) with (last ((c0 :: mid) ++ [cl]) c0) in Hl.
      rewrite last_last in Hl. exact Hl. }
    apply Forall_app in Hrest as [Hmid Hcl]. inversion Hcl; subst.
    replace (List.length (c0 :: mid ++ [cl])) with (S (S (List.length mid)))
      by (simpl; rewrite length_app; simpl; lia).
    simpl radices. rewrite map_cons, map_app. simpl map at 2.
    constructor; [apply digit_boundary; assumption|].
    apply Forall2_app.
    + clear -Hmid. induction Hmid; simpl; constructor; [|assumption].
      destruct (glyph_digit _ H) as [_ B]. exact B.
    + constructor; [|constructor]. apply digit_boundary; assumption.
Qed.

Lemma glyph_digit_map (cs : list ascii) :
  Forall (fun c => in_alphabet c = true) cs -> map glyph (map digit cs) = cs.
Proof.
  induction 1; simpl; [reflexivity|]. f_equal; [apply glyph_digit; assumption|assumption].
Qed.

End EnumFacts.

(** C8: for every legal room name [n], [roomNameToIndex n] is not [none]
    and [indexToRoomName |n| (roomNameToIndex n).index = n]. *)
Theorem roomName_roundtrip (n : string) (H : Enum.legal_name n = true) :
  exists i, Enum.roomNameToIndex n = Some (String.length n, i)
            /\ Enum.indexToRoomName (String.length n) i = Some n.
Proof.
  destruct (EnumFacts.legal_fits n H) as (Hf & Hin & Hdd).
  set (cs := list_ascii_of_string n) in *.
  exists (Enum.digits_val (rev (map Enum.digit cs)) (Enum.radices (List.length cs))).
  rewrite <- EnumFacts.length_list_ascii. fold cs.
  split.
  - unfold Enum.roomNameToIndex. rewrite H. reflexivity.
  - assert (Hr : Forall2 EnumFacts.fits (rev (map Enum.digit cs))
                                        (Enum.radices (List.length cs))).
    { rewrite <- EnumFacts.radices_palindrome. apply EnumFacts.Forall2_rev'. exact Hf. }
    assert (HL : List.length cs <> O).
    { unfold Enum.legal_name in H. fold cs in H. destruct cs; [discriminate|]. simpl; lia. }
    pose proof (EnumFacts.digits_val_bounds _ _ Hr) as B.
    destruct (EnumFacts.radices_prod (List.length cs)) as [Hp|Hp]; [|contradiction].
    rewrite Hp in B.
    unfold Enum.indexToRoomName.
    replace ((List.length cs =? 0)%nat) with false by (symmetry; apply Nat.eqb_neq; exact HL).
    replace (_ <? 0)%Z with false by (symmetry; apply Z.ltb_ge; lia).
    replace (_ <=? _)%Z with false by (symmetry; apply Z.leb_gt; lia).
    simpl orb. cbv zeta.
    rewrite (EnumFacts.to_digits_val _ _ Hr), map_rev,
            (EnumFacts.glyph_digit_map _ Hin), rev_involutive, Hdd.
    unfold cs. rewrite string_of_list_ascii_of_string. reflexivity.
Qed.

(** The round trip at the name "ab-cd" of the repository's test. *)
Lemma roomName_roundtrip_witness :
  Enum.legal_name "ab-cd" = true
  /\ exists i, Enum.roomNameToIndex "ab-cd" = Some (String.length "ab-cd", i)
               /\ Enum.indexToRoomName (String.length "ab-cd") i = Some "ab-cd"%string.
Proof. split; [reflexivity | apply roomName_roundtrip; reflexivity]. Defined.

(** ** Word-list filtering *)

(** C9: the filter of [setWordlist] and [loadWordlist] lets the one-character
    word ["-"] through ([name.length > 1] guards the [NO_DASH_AT_ENDS] test,
    whose [^[a-z0-9]$] branch is meant for one-character names), so a stored
    word can break the grammar (a leading and trailing [-]). *)
Theorem setWordlist_keeps_dash :
  Words.isValidRoomName "-" = true
  /\ Words.setWordlist [" - "%string] = ["-"%string]
  /\ Words.loadWordlist_text "-" = ["-"%string]
  /\ Enum.legal_name "-" = false.
Proof. repeat split; reflexivity. Qed.

(** ** Invalid packets *)

Lemma decodePacket_nonhex (P : Prims) (packetHex : string) :
  let cleanHex :=
    string_of_list_ascii
      (strip_0x (filter (fun c => negb (Js.is_ws c))
                        (list_ascii_of_string (Js.trim packetHex)))) in
  forallb is_hex_digit (list_ascii_of_string cleanHex) = false ->
  decodePacket P packetHex = None.
Proof.
  intros cleanHex H. unfold decodePacket. fold cleanHex. rewrite H.
  rewrite orb_true_r. reflexivity.
Qed.

(** C7: when the packet does not decode as a group-text frame, [crack]
    returns [found = false] with an error starting "Invalid packet", and
    leaves the state untouched: the trace gains no event, in particular no
    executor call, and the abort flag is not even read. *)
Theorem crack_invalid_packet (P : Prims) (env : Env) (wl : list string)
    (packetHex : string) (o : CrackOptions) (s : St)
    (H : decodePacket P (Js.toLowerCase packetHex) = None) :
  let '(r, s') := crack P env wl packetHex o s in
  found r = false
  /\ (exists rest, error r = Some ("Invalid packet" ++ rest)%string)
  /\ s' = s
  /\ trace s' = trace s.
Proof.
  unfold crack. rewrite H. simpl.
  split; [reflexivity|]. split; [eexists; reflexivity|]. split; reflexivity.
Qed.

(** The packet of the spec's scenario 7, ["invalid"]. *)
Lemma crack_invalid_packet_witness :
  decodePacket Demo.prims (Js.toLowerCase "invalid") = None
  /\ (let '(r, s') := crack Demo.prims (Demo.env []) Demo.words "invalid"
                        (Demo.options 2 1 None None) Demo.st0 in
      found r = false
      /\ (exists rest, error r = Some ("Invalid packet" ++ rest)%string)
      /\ s' = Demo.st0 /\ trace s' = trace Demo.st0).
Proof.
  split; [vm_compute; reflexivity|].
  apply crack_invalid_packet. vm_compute. reflexivity.
Defined.

(** ** JavaScript numbers *)

Module NumFacts.

Lemma hex2_length (b : Z) : String.length (hex2 b) = 2%nat.
Proof. reflexivity. Qed.

Lemma to_hex_aux_length (f : nat) (m : Z) (acc : string) :
  (S (String.length acc) <= String.length (to_hex_aux (S f) m acc))%nat.
Proof.
  revert m acc; induction f as [|f IH]; intros m acc; cbn [to_hex_aux].
  - destruct (m <? 16)%Z; simpl; lia.
  - destruct (m <? 16)%Z; [simpl; lia|].
    specialize (IH (m / 16)%Z (String (hexdig (m mod 16)) acc)). simpl in IH. lia.
Qed.

Lemma to_hex_nonempty (n : Z) : (1 <= String.length (to_hex n))%nat.
Proof. unfold to_hex. exact (to_hex_aux_length (Z.to_nat (Z.log2 n)) n EmptyString). Qed.

Lemma to_hex_long (n : Z) : (256 <= n)%Z -> (3 <= String.length (to_hex n))%nat.
Proof.
  intros Hn. unfold to_hex.
  assert (Hl : (8 <= Z.log2 n)%Z).
  { change 8%Z with (Z.log2 256). apply Z.log2_le_mono. exact Hn. }
  destruct (Z.to_nat (Z.log2 n)) as [|[|[|f]]] eqn:E; try lia.
  cbn [to_hex_aux].
  replace (n <? 16)%Z with false by (symmetry; apply Z.ltb_ge; lia).
  replace (n / 16 <? 16)%Z with false
    by (symmetry; apply Z.ltb_ge; apply Z.div_le_lower_bound; lia).
  pose proof (to_hex_aux_length (S f) (n / 16 / 16)%Z
               (String (hexdig (n / 16 mod 16)) (String (hexdig (n mod 16)) EmptyString))).
  simpl in H |- *. lia.
Qed.

Lemma hexdig_not_dash (d : Z) : hexdig d <> "-"%char.
Proof.
  unfold hexdig.
  destruct (nth_in_or_default (Z.to_nat d) (list_ascii_of_string "0123456789abcdef") "0"%char)
    as [Hin|Heq].
  - intros E. rewrite E in Hin. simpl in Hin.
    repeat (destruct Hin as [Hin|Hin]; [discriminate|]). exact Hin.
  - rewrite Heq. discriminate.
Qed.

Lemma pad_to_hex_small (n : Z) :
  (0 <= n < 256)%Z -> padStart2 (toString16 (Some n)) = hex2 n.
Proof.
  intros Hn.
  assert (C : forallb (fun k => String.eqb (padStart2 (toString16 (Some (Z.of_nat k))))
                                           (hex2 (Z.of_nat k)))
                      (seq 0 256) = true) by (vm_compute; reflexivity).
  rewrite forallb_forall in C. specialize (C (Z.to_nat n)).
  rewrite Z2Nat.id in C by lia. apply String.eqb_eq, C, in_seq. lia.
Qed.

Lemma parse_hex2 (b : Z) : (0 <= b < 256)%Z -> parseInt16 (hex2 b) = Some b.
Proof.
  intros Hb.
  assert (C : forallb (fun k => match parseInt16 (hex2 (Z.of_nat k)) with
                                | Some v => Z.eqb v (Z.of_nat k)
                                | None => false end)
                      (seq 0 256) = true) by (vm_compute; reflexivity).
  rewrite forallb_forall in C. specialize (C (Z.to_nat b)).
  rewrite Z2Nat.id in C by lia.
  assert (Hi : In (Z.to_nat b) (seq 0 256)) by (apply in_seq; lia).
  specialize (C Hi). destruct (parseInt16 (hex2 b)) as [v|]; [|discriminate].
  apply Z.eqb_eq in C. subst. reflexivity.
Qed.

(** Two hex digits of a byte equal the padded rendering of a number only
    when the number is that byte. *)
Lemma hex2_eq_padded (b : Z) (t : num) :
  (0 <= b < 256)%Z -> hex2 b = padStart2 (toString16 t) -> t = Some b.
Proof.
  intros Hb H. destruct t as [n|].
  - destruct (Z.ltb_spec n 256) as [Hlt|Hge]; [destruct (Z.ltb_spec n 0) as [Hneg|Hpos]|].
    + unfold toString16 in H. replace (n <? 0)%Z with true in H by (symmetry; apply Z.ltb_lt; exact Hneg).
      pose proof (to_hex_nonempty (- n)) as Hne.
      destruct (to_hex (- n)) as [|c x]; [simpl in Hne; lia|].
      simpl in H. injection H as H1 _. exfalso. exact (hexdig_not_dash _ H1).
    + rewrite pad_to_hex_small in H by lia.
      apply (f_equal parseInt16) in H.
      rewrite !parse_hex2 in H by lia. congruence.
    + unfold toString16 in H. replace (n <? 0)%Z with false in H by (symmetry; apply Z.ltb_ge; lia).
      pose proof (to_hex_long n ltac:(lia)) as Hlen.
      unfold padStart2 in H.
      destruct (String.length (to_hex n)) as [|[|[|k]]] eqn:E; try lia.
      apply (f_equal String.length) in H. rewrite hex2_length, E in H. lia.
  - apply (f_equal String.length) in H. discriminate.
Qed.

Lemma num_eq_spec (a b : num) : num_eq a b = true -> a = b /\ a <> None.
Proof.
  destruct a, b; simpl; try discriminate. intros E. apply Z.eqb_eq in E. subst.
  split; [reflexivity|discriminate].
Qed.

(** The channel-hash byte of a key, read back by [parseInt(_, 16)]. *)
Lemma parse_channel_hash (P : Prims) (k : string) :
  parseInt16 (getChannelHash P k) = Some (keyDigest P k mod 256)%Z.
Proof. apply parse_hex2. apply Z.mod_pos_bound. lia. Qed.

Lemma channel_hash_padded (P : Prims) (k : string) (t : num) :
  getChannelHash P k = padStart2 (toString16 t) <-> t = Some (keyDigest P k mod 256)%Z.
Proof.
  pose proof (Z.mod_pos_bound (keyDigest P k) 256 ltac:(lia)) as B.
  split.
  - apply hex2_eq_padded. exact B.
  - intros ->. unfold getChannelHash. rewrite pad_to_hex_small by exact B. reflexivity.
Qed.

End NumFacts.

(** ** The portable batch executor *)

Lemma in_zrange (n i : Z) : In i (zrange n) <-> (0 <= i < n)%Z.
Proof.
  unfold zrange. rewrite in_map_iff. split.
  - intros [k [<- Hk]]. apply in_seq in Hk. lia.
  - intros Hi. exists (Z.to_nat i). split; [lia|]. apply in_seq. lia.
Qed.

(** Membership in the output of [runBatch]. *)
Lemma runBatch_spec (P : Prims) (t : num) (L : nat) (off bs : Z)
    (ct mac : option string) (idx : Z) :
  In idx (runBatch P t L off bs ct mac)
  <-> exists i, (0 <= i < bs)%Z /\ idx = (off + i)%Z
       /\ exists name, Enum.indexToRoomName L idx = Some name
          /\ t = Some (keyDigest P (deriveKeyFromRoomName P ("#" ++ name)) mod 256)%Z
          /\ mac_ok P ct mac (deriveKeyFromRoomName P ("#" ++ name)).
Proof.
  unfold runBatch. cbv zeta.
  set (vme := match ct, mac with
              | Some c, Some m => Js.truthy c && Js.truthy m
              | _, _ => false end).
  set (cm := (match ct with Some c => c | None => ""%string end,
              match mac with Some m => m | None => ""%string end)).
  set (cand := fun i =>
         match Enum.indexToRoomName L (off + i) with
         | None => false
         | Some name =>
             let k := deriveKeyFromRoomName P ("#" ++ name) in
             (getChannelHash P k =? padStart2 (toString16 t))%string
             && negb (vme && negb (verifyMac P (fst cm) (snd cm) k))
         end).
  match goal with |- In idx (fold_left ?f _ _) <-> _ => set (step := f) end.
  assert (Hstep : forall m i, step m i = if cand i then m ++ [(off + i)%Z] else m).
  { intros m i. unfold step, cand. cbv zeta.
    destruct (Enum.indexToRoomName L (off + i)) as [name|]; [|reflexivity].
    destruct (getChannelHash P _ =? _)%string; [|reflexivity].
    simpl negb. cbv iota. destruct vme; [|reflexivity].
    destruct (verifyMac _ _ _ _); reflexivity. }
  assert (G : forall l acc,
             fold_left step l acc = acc ++ map (Z.add off) (filter cand l)).
  { induction l as [|i l IH]; intros acc; simpl; [rewrite app_nil_r; reflexivity|].
    rewrite IH, Hstep. destruct (cand i); simpl; [rewrite <- app_assoc|]; reflexivity. }
  rewrite G. simpl. rewrite in_map_iff. split.
  - intros [i [<- Hi]]. apply filter_In in Hi as [Hi Hc]. apply in_zrange in Hi.
    exists i. split; [exact Hi|]. split; [reflexivity|].
    unfold cand in Hc. cbv zeta in Hc.
    destruct (Enum.indexToRoomName L (off + i)) as [name|] eqn:En; [|discriminate].
    apply andb_prop in Hc as [Hh Hv].
    apply String.eqb_eq, NumFacts.channel_hash_padded in Hh.
    exists name. split; [reflexivity|]. split; [exact Hh|].
    unfold mac_ok. unfold vme, cm in Hv. destruct ct as [c|], mac as [m|]; try exact I.
    simpl in Hv. intros Ht. rewrite Ht in Hv. simpl in Hv. revert Hv. destruct (verifyMac _ _ _ _); simpl; congruence.
  - intros [i [Hi [-> [name [En [Eh Ev]]]]]]. exists i. split; [reflexivity|].
    apply filter_In. split; [apply in_zrange; exact Hi|].
    unfold cand. cbv zeta. rewrite En.
    apply andb_true_intro. split.
    + apply String.eqb_eq, NumFacts.channel_hash_padded. exact Eh.
    + apply negb_true_iff. unfold mac_ok in Ev. unfold vme, cm.
      destruct ct as [c|], mac as [m|]; try reflexivity. simpl.
      destruct (Js.truthy c && Js.truthy m) eqn:Ht; [|reflexivity].
      rewrite (Ev eq_refl). reflexivity.
Qed.

(** C2 (as the code has it): the portable backend returns the absolute
    indices [offset + i], [0 <= i < batchSize], whose name exists, whose
    key has the target channel-hash byte, and whose MAC verifies when both
    hex strings are given and non-empty. *)
Theorem runBatch_members (P : Prims) (t : num) (L : nat) (off bs : Z)
    (ct mac : option string) (idx : Z) :
  In idx (runBatch P t L off bs ct mac)
  <-> exists i, (0 <= i < bs)%Z /\ idx = (off + i)%Z
       /\ exists name, Enum.indexToRoomName L idx = Some name
          /\ t = Some (keyDigest P (deriveKeyFromRoomName P ("#" ++ name)) mod 256)%Z
          /\ mac_ok P ct mac (deriveKeyFromRoomName P ("#" ++ name)).
Proof. exact (runBatch_spec P t L off bs ct mac idx). Qed.

(** C2 as stated fails: with [offset = 1] and [batchSize = 1] the only
    candidate ("b", whose key has the target byte [0]) is returned as the
    absolute index [1], not as the within-batch index [0] of the spec's
    contract. *)
Lemma runBatch_not_within_batch :
  runBatch Demo.prims (Some 0%Z) 1 1 1 None None = [1%Z]
  /\ contract_indices Demo.prims (Some 0%Z) 1 1 1 None None = [0%Z]
  /\ ~ (0 <= 1 < 1)%Z.
Proof. split; [vm_compute; reflexivity|]. split; [vm_compute; reflexivity|]. lia. Qed.

(** ** Outcomes of [crack] *)

Module CrackFacts.

Lemma returns_ret {A} (a : A) (Q : A -> Prop) : Q a -> returns (ret a) Q.
Proof. intros H s. exact H. Qed.

Lemma returns_bind {A B} (m : M A) (f : A -> M B) (R : A -> Prop) (Q : B -> Prop) :
  returns m R -> (forall a, R a -> returns (f a) Q) -> returns (bind m f) Q.
Proof.
  intros Hm Hf s. unfold bind. specialize (Hm s).
  destruct (m s) as [a s'] eqn:E. exact (Hf a Hm s').
Qed.

Lemma returns_any {A} (m : M A) : returns m (fun _ => True).
Proof. intros s. exact I. Qed.

Lemma verifyMacAndFilters_sound (P : Prims) (useTs useUtf8 : bool) (vs : Z)
    (ct mac k : string) (m : list N) :
  verifyMacAndFilters P useTs useUtf8 vs ct mac k = Some m ->
  verifyMac P ct mac k = true
  /\ exists ts, decryptGroupTextMessage P ct mac k = Some (ts, m)
     /\ (useTs = true -> isTimestampValid P ts vs = true)
     /\ (useUtf8 = true -> isValidUtf8 m = true).
Proof.
  unfold verifyMacAndFilters.
  destruct (verifyMac P ct mac k); simpl; [|discriminate].
  destruct (decryptGroupTextMessage P ct mac k) as [[ts msg]|]; [|discriminate].
  destruct useTs, (isTimestampValid P ts vs) eqn:Et; simpl; try discriminate;
  destruct useUtf8, (isValidUtf8 msg) eqn:Eu; simpl; try discriminate;
  intros Hm; injection Hm as <-; split; auto; exists ts;
  repeat split; auto; intros Hc; discriminate Hc.
Qed.

Section Loops.

Variable P : Prims.
Variable env : Env.
Variable vmf : string -> option (list N).
Variable target : num.

Lemma dict_loop_shape (wl : list string) (fuel i : nat) :
  returns (dict_loop P env vmf target wl fuel i)
    (fun rB => match rB with
               | None => True
               | Some r => (exists w, r = aborted_result (Some w) RDictionary)
                           \/ dict_found P vmf target r
               end).
Proof.
  revert i. induction fuel as [|f IH]; intros i; cbn [dict_loop].
  - apply returns_ret; exact I.
  - destruct (nth_error wl i) as [word|]; [|apply returns_ret; exact I].
    apply returns_bind with (R := fun _ => True); [apply returns_any|].
    intros [|] _.
    + apply returns_ret. left. eauto.
    + apply returns_bind with (R := fun _ => True); [apply returns_any|].
      intros _ _.
      destruct (num_eq _ target) eqn:Eh; [|apply IH].
      destruct (vmf _) as [m|] eqn:Ev; [|apply IH].
      apply returns_ret. right. exists word, m. auto.
Qed.

Lemma check_matches_shape (L : nat) (ms : list Z) (r : CrackResult) :
  check_matches P vmf L ms = Some r ->
  exists idx name m,
    In idx ms /\ Enum.indexToRoomName L idx = Some name
    /\ vmf (deriveKeyFromRoomName P ("#" ++ name)) = Some m
    /\ r = found_result name (deriveKeyFromRoomName P ("#" ++ name)) (Some m)
             (Some (name, RBruteforce)).
Proof.
  induction ms as [|idx rest IH]; simpl; [discriminate|].
  destruct (Enum.indexToRoomName L idx) as [name|] eqn:En.
  - destruct (vmf _) as [m|] eqn:Ev.
    + intros H. injection H as <-. exists idx, name, m. auto.
    + intros H. destruct (IH H) as (i & n & m & Hi & Hrest). exists i, n, m. auto.
  - intros H. destruct (IH H) as (i & n & m & Hi & Hrest). exists i, n, m. auto.
Qed.

Variable useCpu : bool.
Variable ct mac : string.

Lemma bf_offsets_shape (fuel L : nat) (total offset cur : Z) (tuned : bool) :
  returns (bf_offsets P env vmf target useCpu ct mac fuel L total offset cur tuned)
    (fun x => match x with
              | inr _ => True
              | inl r => (exists pos, r = aborted_result pos RBruteforce)
                         \/ bf_found P vmf target useCpu ct mac r
              end).
Proof.
  revert offset cur tuned.
  induction fuel as [|f IH]; intros offset cur tuned; cbn [bf_offsets].
  - apply returns_ret; exact I.
  - destruct (offset <? total)%Z; [|apply returns_ret; exact I].
    apply returns_bind with (R := fun _ => True); [apply returns_any|].
    intros [|] _; [apply returns_ret; left; eauto|].
    apply returns_bind with (R := fun ms => ms = executor P target useCpu ct mac
                                             L offset (Z.min cur (total - offset))).
    { unfold dispatch. apply returns_bind with (R := fun _ => True);
        [apply returns_any|]. intros _ _. apply returns_ret. reflexivity. }
    intros ms Hms.
    match goal with
    | |- context [match ?e with pair _ _ => _ end] => destruct e as [cur' tuned']
    end.
    destruct (check_matches P vmf L ms) as [r|] eqn:Ec; [|apply IH].
    apply returns_ret. right.
    destruct (check_matches_shape _ _ _ Ec) as (idx & name & m & Hin & Hn & Hv & ->).
    subst ms. exists L, offset, (Z.min cur (total - offset)), idx, name, m. auto.
Qed.

Lemma bf_lengths_shape (fuel L maxL startL : nat) (startOff cur : Z) (tuned : bool) :
  returns (bf_lengths P env vmf target useCpu ct mac fuel L maxL startL startOff cur tuned)
    (fun x => match x with
              | None => True
              | Some r => (exists pos, r = aborted_result pos RBruteforce)
                          \/ bf_found P vmf target useCpu ct mac r
              end).
Proof.
  revert L cur tuned.
  induction fuel as [|f IH]; intros L cur tuned; cbn [bf_lengths].
  - apply returns_ret; exact I.
  - destruct (L <=? maxL)%nat; [|apply returns_ret; exact I].
    apply returns_bind with (R := fun _ => True); [apply returns_any|].
    intros [|] _; [apply returns_ret; left; eauto|].
    eapply returns_bind; [apply bf_offsets_shape|].
    intros [r|[c t]] H; [apply returns_ret; exact H|apply IH].
Qed.

End Loops.

Lemma crack_shape (P : Prims) (env : Env) (wl : list string) (hex : string)
    (o : CrackOptions) :
  returns (crack P env wl hex o)
    (fun r => match decodePacket P (Js.toLowerCase hex) with
              | None => r = invalid_packet_result
              | Some d => crack_outcome P o d r
              end).
Proof.
  unfold crack. cbv zeta.
  destruct (decodePacket P (Js.toLowerCase hex)) as [d|];
    [|apply returns_ret; reflexivity].
  apply returns_bind with (R := fun _ => True); [apply returns_any|].
  intros useCpu _.
  destruct (resume_setup wl _ o) as [[[startL startOff] dictStart] skipDict].
  apply returns_bind with
    (R := fun rA => match rA with
                    | None => True
                    | Some r => exists m, filters_of P o d (PUBLIC_KEY P) = Some m
                                /\ r = found_result PUBLIC_ROOM_NAME (PUBLIC_KEY P)
                                         (Some m) None
                    end).
  { destruct (_ && _)%bool; [|apply returns_ret; exact I].
    apply returns_bind with (R := fun _ => True); [apply returns_any|].
    intros _ _. destruct (String.eqb _ _); [|apply returns_ret; exact I].
    unfold filters_of.
    destruct (verifyMacAndFilters _ _ _ _ _ _ _) as [m|];
      apply returns_ret; eauto. }
  intros [r|] HA; [apply returns_ret; left; exact HA|].
  apply returns_bind with
    (R := fun rB => match rB with
                    | None => True
                    | Some r => (exists w, r = aborted_result (Some w) RDictionary)
                                \/ dict_found P (filters_of P o d)
                                     (parseInt16 (channelHash d)) r
                    end).
  { destruct (_ && _ && _)%bool; [|apply returns_ret; exact I].
    apply dict_loop_shape. }
  intros [r|] HB.
  { apply returns_ret. right. destruct HB as [HB|HB]; [left|right; left]; exact HB. }
  eapply returns_bind; [apply bf_lengths_shape|].
  intros [r|] HC; apply returns_ret.
  - do 3 right. destruct HC as [HC|HC]; [left; exact HC|right; left; eauto].
  - do 5 right. eauto.
Qed.

End CrackFacts.

Module FoundFacts.

(** What a found result carries, by phase. *)
Lemma found_outcome (P : Prims) (o : CrackOptions) (d : DecodedPacket)
    (r : CrackResult) :
  crack_outcome P o d r -> found r = true ->
  exists name k m,
    roomName r = Some name /\ key r = Some k /\ decryptedMessage r = Some m
    /\ filters_of P o d k = Some m
    /\ ((name = PUBLIC_ROOM_NAME /\ k = PUBLIC_KEY P
         /\ resumeFrom r = None /\ resumeType r = None)
        \/ (k = deriveKeyFromRoomName P ("#" ++ name)
            /\ resumeFrom r = Some name /\ resumeType r <> None
            /\ (num_eq (parseInt16 (getChannelHash P k)) (parseInt16 (channelHash d))
                  = true
                \/ exists useCpu L off bs idx,
                     In idx (executor P (parseInt16 (channelHash d)) useCpu
                               (ciphertext d) (cipherMac d) L off bs)
                     /\ Enum.indexToRoomName L idx = Some name))).
Proof.
  unfold crack_outcome. cbv zeta.
  intros [H|[H|[H|[H|[H|H]]]]] Hf.
  - destruct H as (m & Hm & ->).
    exists PUBLIC_ROOM_NAME, (PUBLIC_KEY P), m.
    do 4 (split; [first [reflexivity | exact Hm]|]). left. auto.
  - destruct H as (w & ->). discriminate.
  - destruct H as (word & m & Hh & Hv & ->).
    exists word, (deriveKeyFromRoomName P ("#" ++ word)), m.
    do 4 (split; [first [reflexivity | exact Hv]|]). right.
    split; [reflexivity|]. split; [reflexivity|]. split; [discriminate|].
    left. exact Hh.
  - destruct H as (pos & ->). discriminate.
  - destruct H as (useCpu & L & off & bs & idx & name & m & Hin & Hn & Hv & ->).
    exists name, (deriveKeyFromRoomName P ("#" ++ name)), m.
    do 4 (split; [first [reflexivity | exact Hv]|]). right.
    split; [reflexivity|]. split; [reflexivity|]. split; [discriminate|].
    right. exists useCpu, L, off, bs, idx. auto.
  - destruct H as (pos & ->). discriminate.
Qed.

(** [crack]'s result together with the decoded packet, for a found result. *)
Lemma crack_found (P : Prims) (env : Env) (wl : list string) (hex : string)
    (o : CrackOptions) (s : St) :
  found (fst (crack P env wl hex o s)) = true ->
  exists d, decodePacket P (Js.toLowerCase hex) = Some d
            /\ crack_outcome P o d (fst (crack P env wl hex o s)).
Proof.
  pose proof (CrackFacts.crack_shape P env wl hex o s) as H. cbv beta in H.
  revert H. generalize (fst (crack P env wl hex o s)) as r. intros r H Hf.
  destruct (decodePacket P (Js.toLowerCase hex)) as [d|].
  - exists d. auto.
  - subst r. discriminate.
Qed.

End FoundFacts.

(** C6: a found result passes every enabled filter: with [useUtf8Filter]
    on, its message has no U+FFFD; with [useTimestampFilter] on, the
    decrypted timestamp lies in [[now - validSeconds, now + validSeconds]]. *)
Theorem crack_filters_hold (P : Prims) (env : Env) (wl : list string)
    (hex : string) (o : CrackOptions) (s : St)
    (Hf : found (fst (crack P env wl hex o s)) = true) :
  exists d k m ts,
    decodePacket P (Js.toLowerCase hex) = Some d
    /\ key (fst (crack P env wl hex o s)) = Some k
    /\ decryptedMessage (fst (crack P env wl hex o s)) = Some m
    /\ decryptGroupTextMessage P (ciphertext d) (cipherMac d) k = Some (ts, m)
    /\ (opt true (useUtf8Filter o) = true -> ~ In 65533%N m)
    /\ (opt true (useTimestampFilter o) = true ->
        (now P - opt DEFAULT_VALID_SECONDS (validSeconds o) <= ts
         <= now P + opt DEFAULT_VALID_SECONDS (validSeconds o))%Z).
Proof.
  destruct (FoundFacts.crack_found P env wl hex o s Hf) as (d & Hd & Ho).
  destruct (FoundFacts.found_outcome P o d _ Ho Hf)
    as (name & k & m & _ & Hk & Hm & Hv & _).
  unfold filters_of in Hv.
  apply CrackFacts.verifyMacAndFilters_sound in Hv as (_ & ts & Hdec & Hts & Hutf).
  exists d, k, m, ts. do 4 (split; [assumption|]). split.
  - intros Hu Hin. specialize (Hutf Hu). unfold isValidUtf8 in Hutf.
    apply negb_true_iff in Hutf.
    assert (existsb (N.eqb 65533) m = true) as Hc.
    { apply existsb_exists. exists 65533%N. split; [exact Hin|apply N.eqb_refl]. }
    congruence.
  - intros Ht. specialize (Hts Ht). unfold isTimestampValid in Hts.
    apply andb_prop in Hts as [H1 H2]. apply Z.leb_le in H1, H2. lia.
Qed.

(** The C6 theorem at a run that finds ["bb"] in the dictionary. *)
Lemma crack_filters_hold_witness :
  found (fst (crack Demo.prims (Demo.env []) Demo.words Demo.packet
                (Demo.options 1 1 None None) Demo.st0)) = true
  /\ exists d k m ts,
    decodePacket Demo.prims (Js.toLowerCase Demo.packet) = Some d
    /\ key (fst (crack Demo.prims (Demo.env []) Demo.words Demo.packet
                   (Demo.options 1 1 None None) Demo.st0)) = Some k
    /\ decryptedMessage (fst (crack Demo.prims (Demo.env []) Demo.words Demo.packet
                   (Demo.options 1 1 None None) Demo.st0)) = Some m
    /\ decryptGroupTextMessage Demo.prims (ciphertext d) (cipherMac d) k = Some (ts, m)
    /\ (opt true (useUtf8Filter (Demo.options 1 1 None None)) = true -> ~ In 65533%N m)
    /\ (opt true (useTimestampFilter (Demo.options 1 1 None None)) = true ->
        (now Demo.prims - opt DEFAULT_VALID_SECONDS (validSeconds (Demo.options 1 1 None None))
           <= ts
         <= now Demo.prims + opt DEFAULT_VALID_SECONDS (validSeconds (Demo.options 1 1 None None)))%Z).
Proof.
  assert (Hf : found (fst (crack Demo.prims (Demo.env []) Demo.words Demo.packet
                             (Demo.options 1 1 None None) Demo.st0)) = true)
    by (vm_compute; reflexivity).
  split; [exact Hf|].
  exact (crack_filters_hold Demo.prims (Demo.env []) Demo.words Demo.packet
           (Demo.options 1 1 None None) Demo.st0 Hf).
Defined.

(** C10: a found result other than the public room carries the key of
    ["#" ++ roomName]; that key's channel-hash byte is the packet's, and
    its MAC check on the packet's ciphertext succeeds.  The accelerator is
    assumed to report only named indices whose key has the target byte. *)
Theorem crack_found_key_consistent (P : Prims) (env : Env) (wl : list string)
    (hex : string) (o : CrackOptions) (s : St)
    (Hgpu : forall t L off bs c m idx,
        In idx (gpuRunBatch P t L off bs c m) ->
        exists name, Enum.indexToRoomName L idx = Some name
          /\ t = Some (keyDigest P (deriveKeyFromRoomName P ("#" ++ name)) mod 256)%Z)
    (Hf : found (fst (crack P env wl hex o s)) = true)
    (Hn : roomName (fst (crack P env wl hex o s)) <> Some PUBLIC_ROOM_NAME) :
  exists d name k,
    decodePacket P (Js.toLowerCase hex) = Some d
    /\ roomName (fst (crack P env wl hex o s)) = Some name
    /\ key (fst (crack P env wl hex o s)) = Some k
    /\ k = deriveKeyFromRoomName P ("#" ++ name)
    /\ parseInt16 (channelHash d) = Some (keyDigest P k mod 256)%Z
    /\ verifyMac P (ciphertext d) (cipherMac d) k = true.
Proof.
  destruct (FoundFacts.crack_found P env wl hex o s Hf) as (d & Hd & Ho).
  destruct (FoundFacts.found_outcome P o d _ Ho Hf)
    as (name & k & m & Hname & Hk & _ & Hv & Hph).
  destruct Hph as [(-> & _)|(Hkn & _ & _ & Hhash)]; [congruence|].
  unfold filters_of in Hv.
  apply CrackFacts.verifyMacAndFilters_sound in Hv as (Hmac & _).
  exists d, name, k. do 4 (split; [assumption|]). split; [|exact Hmac].
  destruct Hhash as [Hh|(useCpu & L & off & bs & idx & Hin & Hidx)].
  - apply NumFacts.num_eq_spec in Hh as [Hh _].
    rewrite NumFacts.parse_channel_hash in Hh. symmetry. exact Hh.
  - unfold executor in Hin. destruct useCpu.
    + apply runBatch_spec in Hin as (i & _ & _ & name' & Hn' & Ht & _).
      rewrite Hidx in Hn'. injection Hn' as <-. subst k. exact Ht.
    + apply Hgpu in Hin as (name' & Hn' & Ht).
      rewrite Hidx in Hn'. injection Hn' as <-. subst k. exact Ht.
Qed.

(** The C10 theorem at the dictionary run that finds ["bb"]. *)
Lemma crack_found_key_consistent_witness :
  exists d name k,
    decodePacket Demo.prims (Js.toLowerCase Demo.packet) = Some d
    /\ roomName (fst (crack Demo.prims (Demo.env []) Demo.words Demo.packet
                        (Demo.options 1 1 None None) Demo.st0)) = Some name
    /\ key (fst (crack Demo.prims (Demo.env []) Demo.words Demo.packet
                   (Demo.options 1 1 None None) Demo.st0)) = Some k
    /\ k = deriveKeyFromRoomName Demo.prims ("#" ++ name)
    /\ parseInt16 (channelHash d) = Some (keyDigest Demo.prims k mod 256)%Z
    /\ verifyMac Demo.prims (ciphertext d) (cipherMac d) k = true.
Proof.
  apply (crack_found_key_consistent Demo.prims (Demo.env []) Demo.words Demo.packet
           (Demo.options 1 1 None None) Demo.st0).
  - intros t L off bs c m idx Hin. simpl in Hin. contradiction.
  - vm_compute. reflexivity.
  - vm_compute. discriminate.
Defined.

(** Resume fields of a Not-found result: they name the last position of
    [maxLength], or nothing when that position has no name. *)
Module ResultFacts.
Import CrackFacts.

Lemma crack_not_found_resumeFrom (P : Prims) (env : Env) (wl : list string)
    (hex : string) (o : CrackOptions) :
  returns (crack P env wl hex o)
    (fun r => found r = false -> aborted r = None -> error r = None ->
       resumeFrom r
       = or_undefined (Enum.indexToRoomName (opt 8%nat (maxLength o))
                         (Enum.countNamesForLength (opt 8%nat (maxLength o)) - 1))).
Proof.
  unfold crack. cbv zeta.
  destruct (decodePacket P (Js.toLowerCase hex)) as [d|];
    [|apply returns_ret; intros _ _ H; discriminate H].
  apply returns_bind with (R := fun _ => True); [apply returns_any|].
  intros useCpu _.
  destruct (resume_setup wl _ o) as [[[startL startOff] dictStart] skipDict].
  apply returns_bind with (R := fun rA => forall r, rA = Some r -> found r = true).
  { destruct (_ && _)%bool; [|apply returns_ret; discriminate].
    apply returns_bind with (R := fun _ => True); [apply returns_any|].
    intros _ _. destruct (String.eqb _ _); [|apply returns_ret; discriminate].
    destruct (verifyMacAndFilters _ _ _ _ _ _ _); apply returns_ret; intros r Hr;
      [injection Hr as <-; reflexivity|discriminate]. }
  intros [r|] HA.
  { apply returns_ret. intros Hf. rewrite (HA r eq_refl) in Hf. discriminate Hf. }
  apply returns_bind with
    (R := fun rB => match rB with
                    | None => True
                    | Some r => (exists w, r = aborted_result (Some w) RDictionary)
                                \/ dict_found P (filters_of P o d)
                                     (parseInt16 (channelHash d)) r
                    end).
  { destruct (_ && _ && _)%bool; [|apply returns_ret; exact I].
    apply dict_loop_shape. }
  intros [r|] HB.
  { apply returns_ret. intros Hf Ha _.
    destruct HB as [(w & ->)|(w & m & _ & _ & ->)]; simpl in Hf, Ha; discriminate. }
  eapply returns_bind; [apply bf_lengths_shape|].
  intros [r|] HC; apply returns_ret.
  - intros Hf Ha _.
    destruct HC as [(pos & ->)|(L & off & bs & idx & name & m & _ & _ & _ & ->)];
      simpl in Hf, Ha; discriminate.
  - intros _ _ _. reflexivity.
Qed.

End ResultFacts.

(** C3 fails: a public-room match returns neither [resumeFrom] nor
    [resumeType]; an abort at a brute-force position with no name (after
    ["a-99"] comes ["a--a"]) returns no [resumeFrom]; and every Not-found
    result with [maxLength = 8] returns no [resumeFrom], since the last
    position of length 8, ["9------9"], has no name.  Starting at length 9
    gives such a result at once. *)
Theorem crack_resume_fields_missing :
  let pub := fst (crack Demo.prims_public (Demo.env []) [] Demo.packet
                    (Demo.options 1 1 None None) Demo.st0) in
  let ab := fst (crack Demo.prims (Demo.env [1]) [] Demo.packet
                   (Demo.options 4 4 (Some "a-99"%string) (Some RBruteforce)) Demo.st0) in
  let nf := fst (crack Demo.prims (Demo.env []) [] Demo.packet
                   (Demo.options 8 9 None None) Demo.st0) in
  (found pub = true /\ roomName pub = Some PUBLIC_ROOM_NAME
   /\ resumeFrom pub = None /\ resumeType pub = None)
  /\ (Enum.roomNameToIndex "a-99" = Some (4%nat, 49247%Z)
      /\ Enum.indexToRoomName 4 49248 = None
      /\ aborted ab = Some true /\ resumeFrom ab = None)
  /\ (found nf = false /\ aborted nf = None /\ error nf = None
      /\ resumeType nf = Some RBruteforce /\ resumeFrom nf = None)
  /\ Enum.indexToRoomName 8 (Enum.countNamesForLength 8 - 1) = None
  /\ (forall P env wl hex o s, opt 8%nat (maxLength o) = 8%nat ->
        let r := fst (crack P env wl hex o s) in
        found r = false -> aborted r = None -> error r = None -> resumeFrom r = None).
Proof.
  cbv zeta.
  assert (Hlast : Enum.indexToRoomName 8 (Enum.countNamesForLength 8 - 1) = None)
    by (vm_compute; reflexivity).
  split; [vm_compute; repeat split; reflexivity|].
  split; [vm_compute; repeat split; reflexivity|].
  split; [vm_compute; repeat split; reflexivity|].
  split; [exact Hlast|].
  intros P env wl hex o s H8 Hf Ha He.
  rewrite (ResultFacts.crack_not_found_resumeFrom P env wl hex o s Hf Ha He), H8, Hlast.
  reflexivity.
Qed.

(** C1 fails: an abort in the dictionary phase reports as [resumeFrom]
    the word it was about to test, not the last word tested.  Aborting
    at the second check, before ["bb"] is tested, gives [resumeFrom =
    "bb"]; resuming after it (exclusive) tests ["cc"] and brute force,
    so ["bb"], which a run without abort finds, is never inspected. *)
Theorem crack_resume_skips_unchecked :
  let run1 := crack Demo.prims (Demo.env [1]) Demo.words Demo.packet
                (Demo.options 1 1 None None) Demo.st0 in
  let run2 := crack Demo.prims (Demo.env []) Demo.words Demo.packet
                (Demo.options 1 1 (resumeFrom (fst run1)) (resumeType (fst run1)))
                Demo.st0 in
  let fresh := crack Demo.prims (Demo.env []) Demo.words Demo.packet
                 (Demo.options 1 1 None None) Demo.st0 in
  aborted (fst run1) = Some true
  /\ resumeFrom (fst run1) = Some "bb"%string
  /\ resumeType (fst run1) = Some RDictionary
  /\ trace (snd run1) = [EvPublic; EvDict 0 "aa"]
  /\ trace (snd run2) = [EvDict 2 "cc"; EvBatch true 1 0 36]
  /\ found (fst run2) = false
  /\ found (fst fresh) = true
  /\ roomName (fst fresh) = Some "bb"%string.
Proof. vm_compute. repeat split; reflexivity. Qed.

(** ** Traces of [crack] *)

Module TraceFacts.

Lemma appends_ret {A} (a : A) (Q : A -> list event -> Prop) :
  Q a [] -> appends (ret a) Q.
Proof. intros H s. exists []. split; [rewrite app_nil_r; reflexivity|exact H]. Qed.

Lemma appends_bind {A B} (m : M A) (f : A -> M B) (Q1 : A -> list event -> Prop)
    (Q : B -> list event -> Prop) :
  appends m Q1 ->
  (forall a e1, Q1 a e1 -> appends (f a) (fun b e2 => Q b (e1 ++ e2))) ->
  appends (bind m f) Q.
Proof.
  intros Hm Hf s. unfold bind. destruct (Hm s) as (e1 & Ht1 & Hq1).
  destruct (m s) as [a s'] eqn:E. simpl in Ht1, Hq1.
  destruct (Hf a e1 Hq1 s') as (e2 & Ht2 & Hq2).
  exists (e1 ++ e2). split; [rewrite Ht2, Ht1, app_assoc; reflexivity|exact Hq2].
Qed.

Lemma appends_weaken {A} (m : M A) (Q1 Q2 : A -> list event -> Prop) :
  appends m Q1 -> (forall a e, Q1 a e -> Q2 a e) -> appends m Q2.
Proof.
  intros Hm H s. destruct (Hm s) as (e & Ht & Hq). exists e. auto.
Qed.

Lemma appends_emit (e : event) : appends (emit e) (fun _ evs => evs = [e]).
Proof. intros s. exists [e]. split; reflexivity. Qed.

Lemma appends_readAbort (env : Env) : appends (readAbort env) (fun _ evs => evs = []).
Proof. intros s. exists []. simpl. rewrite app_nil_r. split; reflexivity. Qed.

Lemma appends_init_backend (env : Env) (force : bool) :
  appends (init_backend env force) (fun _ evs => evs = []).
Proof.
  intros s. exists []. rewrite app_nil_r. split; [|reflexivity].
  unfold init_backend. destruct force; [reflexivity|].
  destruct (gpu s); [destruct (gpu_init_ok env)|..]; reflexivity.
Qed.

Section Loops.

Variable P : Prims.
Variable env : Env.
Variable vmf : string -> option (list N).
Variable target : num.

Lemma dict_loop_trace (wl : list string) (fuel i : nat) :
  appends (dict_loop P env vmf target wl fuel i)
    (fun _ evs => forall e, In e evs ->
       exists j w, e = EvDict j w /\ (i <= j)%nat /\ nth_error wl j = Some w).
Proof.
  revert i. induction fuel as [|f IH]; intros i; cbn [dict_loop].
  - apply appends_ret. intros e [].
  - destruct (nth_error wl i) as [word|] eqn:Ew; [|apply appends_ret; intros e []].
    eapply appends_bind; [apply appends_readAbort|]. intros ab e0 ->.
    destruct ab; [apply appends_ret; intros e []|].
    eapply appends_bind; [apply appends_emit|]. intros _ e1 ->.
    assert (Hrest : appends (dict_loop P env vmf target wl f (S i))
              (fun b e2 => forall e, In e ([] ++ [EvDict i word] ++ e2) ->
                 exists j w, e = EvDict j w /\ (i <= j)%nat /\ nth_error wl j = Some w)).
    { eapply appends_weaken; [apply IH|]. intros b e2 H2 e He. cbv beta in H2.
      simpl in He. destruct He as [He|He]; [subst e; exists i, word; auto|].
      destruct (H2 e He) as (j & w & -> & Hj & Hn). exists j, w.
      split; [reflexivity|]. split; [lia|exact Hn]. }
    destruct (num_eq _ target); [|exact Hrest].
    destruct (vmf _); [|exact Hrest].
    apply appends_ret. intros e He. simpl in He.
    destruct He as [He|[]]. subst e. exists i, word. auto.
Qed.

Variable useCpu : bool.
Variable ct mac : string.

Lemma bf_offsets_trace (fuel L : nat) (total offset cur : Z) (tuned : bool) :
  appends (bf_offsets P env vmf target useCpu ct mac fuel L total offset cur tuned)
    (fun x evs =>
       Forall is_batch evs
       /\ (evs = [] \/ exists c bs rest, evs = EvBatch c L offset bs :: rest)
       /\ (evs = [] -> (offset < total)%Z -> fuel <> O -> exists r, x = inl r)).
Proof.
  revert offset cur tuned.
  induction fuel as [|f IH]; intros offset cur tuned; cbn [bf_offsets].
  - apply appends_ret. split; [constructor|]. split; [left; reflexivity|].
    intros _ _ H. congruence.
  - destruct (offset <? total)%Z eqn:Ho.
    2:{ apply appends_ret. split; [constructor|]. split; [left; reflexivity|].
        intros _ H. apply Z.ltb_ge in Ho. lia. }
    eapply appends_bind; [apply appends_readAbort|]. intros ab e0 ->.
    destruct ab.
    { apply appends_ret. split; [constructor|]. split; [left; reflexivity|].
      intros _ _ _. eauto. }
    set (bs := Z.min cur (total - offset)).
    eapply appends_bind.
    { unfold dispatch. eapply appends_bind; [apply appends_emit|].
      intros _ e1 ->. apply appends_ret.
      instantiate (1 := fun _ e => e = [EvBatch useCpu L offset bs]).
      simpl. reflexivity. }
    intros ms e1 ->.
    match goal with
    | |- context [match ?e with pair _ _ => _ end] => destruct e as [cur' tuned']
    end.
    destruct (check_matches P vmf L ms).
    + apply appends_ret. simpl. split; [repeat constructor|].
      split; [right; eauto|]. discriminate.
    + eapply appends_weaken; [apply IH|]. intros x e2 (Hb & _ & _). simpl.
      split; [constructor; [exact I|exact Hb]|].
      split; [right; eauto|]. discriminate.
Qed.

Lemma bf_lengths_trace (fuel L maxL startL : nat) (startOff cur : Z) (tuned : bool) :
  appends (bf_lengths P env vmf target useCpu ct mac fuel L maxL startL startOff cur tuned)
    (fun _ evs =>
       Forall is_batch evs
       /\ (L = startL -> (startOff < Enum.countNamesForLength startL)%Z ->
           evs = [] \/ exists c bs rest, evs = EvBatch c startL startOff bs :: rest)
       /\ ((startL < L)%nat \/ (L = startL /\ startOff = 0%Z) ->
           evs = [] \/ exists c L' bs rest,
                         evs = EvBatch c L' 0 bs :: rest /\ (L <= L')%nat)).
Proof.
  revert L cur tuned.
  induction fuel as [|f IH]; intros L cur tuned; cbn [bf_lengths].
  - apply appends_ret. split; [constructor|]. split; intros; left; reflexivity.
  - destruct (L <=? maxL)%nat.
    2:{ apply appends_ret. split; [constructor|]. split; intros; left; reflexivity. }
    eapply appends_bind; [apply appends_readAbort|]. intros ab e0 ->.
    destruct ab.
    { apply appends_ret. split; [constructor|]. split; intros; left; reflexivity. }
    set (off := if (L =? startL)%nat then startOff else 0%Z).
    eapply appends_bind; [apply bf_offsets_trace|].
    intros x e1 (Hb1 & Hh1 & He1). simpl app.
    assert (Hoff1 : L = startL -> off = startOff).
    { intros ->. unfold off. rewrite Nat.eqb_refl. reflexivity. }
    assert (Hoff2 : (startL < L)%nat \/ (L = startL /\ startOff = 0%Z) -> off = 0%Z).
    { intros [H|[-> ->]]; unfold off;
        [destruct (Nat.eqb_spec L startL); [lia|reflexivity]|rewrite Nat.eqb_refl; reflexivity]. }
    destruct x as [r|[cur' tuned']].
    + apply appends_ret. rewrite app_nil_r. split; [exact Hb1|]. split.
      * intros HL Hlt. rewrite <- (Hoff1 HL), <- HL. exact Hh1.
      * intros Hc. rewrite (Hoff2 Hc) in Hh1.
        destruct Hh1 as [->|(c & bs & rest & ->)]; [left; reflexivity|].
        right. exists c, L, bs, rest. auto.
    + eapply appends_weaken; [apply IH|]. intros _ e2 (Hb2 & _ & Hz2).
      split; [apply Forall_app; auto|]. split.
      * intros HL Hlt. destruct Hh1 as [->|(c' & bs & rest & ->)].
        -- exfalso. rewrite <- HL, <- (Hoff1 HL) in Hlt.
           assert (Hn : Z.to_nat (Enum.countNamesForLength L - off) <> O) by lia.
           destruct (He1 eq_refl Hlt Hn) as [r Hr]. discriminate.
        -- right. rewrite <- (Hoff1 HL), <- HL. exists c', bs, (rest ++ e2). reflexivity.
      * intros Hc. rewrite (Hoff2 Hc) in Hh1.
        destruct Hh1 as [->|(c' & bs & rest & ->)].
        -- simpl. destruct (Hz2 ltac:(lia)) as [->|(c'' & L' & bs & rest & -> & HL')];
             [left; reflexivity|right; exists c'', L', bs, rest; split; [reflexivity|lia]].
        -- right. exists c', L, bs, (rest ++ e2). split; [reflexivity|lia].
Qed.

End Loops.

End TraceFacts.

Module ResumeFacts.
Import TraceFacts.

Lemma batches_from_nil (L0 : nat) (off0 : Z) : batches_from L0 off0 [].
Proof. split; [constructor|]. split; intros; left; reflexivity. Qed.

(** A run's events: the public-room check (only when no resume position
    moved the start), then dictionary words from [dictStart] (only when
    the dictionary is not skipped), then executor calls from
    [(startL, startOff)]. *)
Lemma crack_trace (P : Prims) (env : Env) (wl : list string) (hex : string)
    (o : CrackOptions) (startL : nat) (startOff : Z) (dictStart : nat)
    (skipDict : bool)
    (Hrs : resume_setup wl (opt 1%nat (startingLength o)) o
           = (startL, startOff, dictStart, skipDict)) :
  appends (crack P env wl hex o)
    (fun _ evs => exists eA eB eC,
       evs = eA ++ eB ++ eC
       /\ (eA = [] \/ (eA = [EvPublic] /\ skipDict = false /\ dictStart = O))
       /\ (eB = [] \/ skipDict = false)
       /\ (forall e, In e eB -> exists j w, e = EvDict j w /\ (dictStart <= j)%nat
                                           /\ nth_error wl j = Some w)
       /\ batches_from startL startOff eC).
Proof.
  unfold crack. cbv zeta.
  destruct (decodePacket P (Js.toLowerCase hex)) as [d|].
  2:{ apply appends_ret. exists [], [], []. split; [reflexivity|].
      split; [left; reflexivity|]. split; [left; reflexivity|].
      split; [intros e []|apply batches_from_nil]. }
  eapply appends_bind; [apply appends_init_backend|]. intros useCpu e0 ->.
  cbv beta. rewrite Hrs. cbv beta iota.
  eapply appends_bind with
    (Q1 := fun _ eA => eA = [] \/ (eA = [EvPublic] /\ skipDict = false /\ dictStart = O)).
  { destruct (negb skipDict && (dictStart =? 0)%nat && _ && _)%bool eqn:G.
    - apply andb_prop in G as [G _]. apply andb_prop in G as [G _].
      apply andb_prop in G as [G1 G2].
      apply negb_true_iff in G1. apply Nat.eqb_eq in G2.
      eapply appends_bind; [apply appends_emit|]. intros _ e1 ->.
      destruct (String.eqb _ _); [destruct (verifyMacAndFilters _ _ _ _ _ _ _)|];
        apply appends_ret; right; auto.
    - apply appends_ret. left. reflexivity. }
  intros rA eA HA. destruct rA as [r|].
  { apply appends_ret. exists eA, [], []. split; [simpl; rewrite !app_nil_r; reflexivity|].
    split; [exact HA|]. split; [left; reflexivity|].
    split; [intros e []|apply batches_from_nil]. }
  eapply appends_bind with
    (Q1 := fun _ eB => (eB = [] \/ skipDict = false)
           /\ (forall e, In e eB -> exists j w, e = EvDict j w /\ (dictStart <= j)%nat
                                               /\ nth_error wl j = Some w)).
  { destruct (_ && negb skipDict && _)%bool eqn:G.
    - apply andb_prop in G as [G _]. apply andb_prop in G as [_ G].
      apply negb_true_iff in G.
      eapply appends_weaken; [apply dict_loop_trace|].
      intros b e H. cbv beta in H. split; [right; exact G|exact H].
    - apply appends_ret. split; [left; reflexivity|intros e []]. }
  intros rB eB (HB1 & HB2). destruct rB as [r|].
  { apply appends_ret. exists eA, eB, []. split; [simpl; rewrite !app_nil_r; reflexivity|].
    split; [exact HA|]. split; [exact HB1|]. split; [exact HB2|apply batches_from_nil]. }
  eapply appends_bind; [apply bf_lengths_trace|]. intros rC eC (Hb & H1 & H2).
  assert (HC : batches_from startL startOff eC).
  { split; [exact Hb|]. split; [exact (H1 eq_refl)|]. intros H0. apply H2. auto. }
  destruct rC; apply appends_ret; exists eA, eB, eC;
    (split; [simpl; rewrite !app_nil_r; reflexivity|]); auto.
Qed.

Lemma resume_setup_dict (wl : list string) (n : nat) (o : CrackOptions) (W : string) :
  startFrom o = Some W -> startFromType o = Some RDictionary -> Js.truthy W = true ->
  resume_setup wl n o
  = match Js.indexOf (Js.toLowerCase W) wl with
    | Some k => (n, 0%Z, S k, false)
    | None => (n, 0%Z, O, false)
    end.
Proof.
  intros Hsf Hty Hw. unfold resume_setup. rewrite Hsf, Hw, Hty. reflexivity.
Qed.

Lemma lower_glyphs :
  forallb (fun d => Ascii.eqb (Js.lower_char (Enum.glyph (Z.of_nat d)))
                              (Enum.glyph (Z.of_nat d))) (seq 0 37) = true.
Proof. vm_compute. reflexivity. Qed.

Lemma lower_in_alphabet (c : ascii) :
  Enum.in_alphabet c = true -> Js.lower_char c = c.
Proof.
  intros H. destruct (EnumFacts.glyph_digit c H) as [Hg Hd].
  rewrite <- Hg. pose proof lower_glyphs as L.
  rewrite forallb_forall in L.
  specialize (L (Z.to_nat (Enum.digit c))). rewrite Z2Nat.id in L by lia.
  apply Ascii.eqb_eq. apply L. apply in_seq. lia.
Qed.

Lemma lower_alphabetic (W : string) :
  Forall (fun c => Enum.in_alphabet c = true) (list_ascii_of_string W) ->
  Js.toLowerCase W = W.
Proof.
  induction W as [|c W IH]; simpl; intros H; [reflexivity|].
  apply Forall_cons_iff in H as [Hc Hr].
  rewrite (lower_in_alphabet c Hc), (IH Hr). reflexivity.
Qed.

Lemma lower_legal (W : string) : Enum.legal_name W = true -> Js.toLowerCase W = W.
Proof.
  intros H. destruct (EnumFacts.legal_fits W H) as (_ & Hall & _).
  exact (lower_alphabetic W Hall).
Qed.

Lemma resume_setup_bf (wl : list string) (n : nat) (o : CrackOptions) (W : string)
    (len : nat) (idx : Z) :
  startFrom o = Some W -> startFromType o = Some RBruteforce ->
  Enum.roomNameToIndex W = Some (len, idx) ->
  resume_setup wl n o
  = if (Enum.countNamesForLength (Nat.max n len) <=? idx + 1)%Z
    then (S (Nat.max n len), 0%Z, O, true)
    else (Nat.max n len, (idx + 1)%Z, O, true).
Proof.
  intros Hsf Hty Hidx.
  assert (HL : Enum.legal_name W = true).
  { unfold Enum.roomNameToIndex in Hidx. destruct (Enum.legal_name W); [reflexivity|discriminate]. }
  assert (Ht : Js.truthy W = true).
  { destruct W; [discriminate HL|reflexivity]. }
  unfold resume_setup. rewrite Hsf, Ht, (lower_legal W HL), Hty, Hidx. reflexivity.
Qed.

Lemma count_pos (n : nat) : (0 < Enum.countNamesForLength (S n))%Z.
Proof.
  destruct n; unfold Enum.countNamesForLength; [lia|].
  assert (0 < 37 ^ Z.of_nat n)%Z by (apply Z.pow_pos_nonneg; lia). lia.
Qed.

Lemma roomNameToIndex_length (W : string) (len : nat) (idx : Z) :
  Enum.roomNameToIndex W = Some (len, idx) -> len = String.length W.
Proof.
  unfold Enum.roomNameToIndex. destruct (Enum.legal_name W); [|discriminate].
  intros H. injection H as <- _. apply EnumFacts.length_list_ascii.
Qed.

End ResumeFacts.

(** C4 (as the code has it): resuming the dictionary after [W].  When
    [W] (lowercased) occurs in the word list, first at [k], the public
    room is not checked, the dictionary tests only words at positions
    after [k] (later copies of [W] included), and brute force follows
    from offset [0] of [startingLength] (or of the first longer length
    with names).  When [W] does not occur, the call is a fresh start. *)
Theorem crack_dictionary_resume (P : Prims) (env : Env) (wl : list string)
    (hex : string) (o : CrackOptions) (s : St) (W : string)
    (Hsf : startFrom o = Some W) (Hty : startFromType o = Some RDictionary)
    (Hw : Js.truthy W = true) :
  match Js.indexOf (Js.toLowerCase W) wl with
  | Some k =>
      exists evs, trace (snd (crack P env wl hex o s)) = trace s ++ evs
        /\ ~ In EvPublic evs
        /\ exists eB eC, evs = eB ++ eC
           /\ (forall e, In e eB -> exists i w, e = EvDict i w /\ (k < i)%nat
                                               /\ nth_error wl i = Some w)
           /\ batches_from (opt 1%nat (startingLength o)) 0 eC
  | None => crack P env wl hex o s = crack P env wl hex (with_no_start o) s
  end.
Proof.
  pose proof (ResumeFacts.resume_setup_dict wl (opt 1%nat (startingLength o)) o W
                Hsf Hty Hw) as Hrs.
  destruct (Js.indexOf (Js.toLowerCase W) wl) as [k|] eqn:Hk.
  - destruct (ResumeFacts.crack_trace P env wl hex o _ _ _ _ Hrs s)
      as (evs & Ht & eA & eB & eC & -> & HA & _ & HB & HC).
    destruct HA as [->|(_ & _ & Hd)]; [|discriminate].
    exists (eB ++ eC). split; [exact Ht|]. split.
    + intros Hin. apply in_app_or in Hin as [Hin|Hin].
      * destruct (HB _ Hin) as (j & w & Hj & _). discriminate.
      * destruct HC as (Hb & _). rewrite Forall_forall in Hb. exact (Hb _ Hin).
    + exists eB, eC. split; [reflexivity|]. split; [|exact HC].
      intros e He. destruct (HB e He) as (j & w & -> & Hj & Hn).
      exists j, w. split; [reflexivity|]. split; [lia|exact Hn].
  - unfold crack. rewrite Hrs. reflexivity.
Qed.

(** The C4 theorem at the resume after ["aa"], the first word. *)
Lemma crack_dictionary_resume_witness :
  exists evs,
    trace (snd (crack Demo.prims (Demo.env []) Demo.words Demo.packet
                  (Demo.options 1 1 (Some "aa"%string) (Some RDictionary)) Demo.st0))
    = trace Demo.st0 ++ evs
    /\ ~ In EvPublic evs
    /\ exists eB eC, evs = eB ++ eC
       /\ (forall e, In e eB -> exists i w, e = EvDict i w /\ (0 < i)%nat
                                           /\ nth_error Demo.words i = Some w)
       /\ batches_from 1 0 eC.
Proof.
  exact (crack_dictionary_resume Demo.prims (Demo.env []) Demo.words Demo.packet
           (Demo.options 1 1 (Some "aa"%string) (Some RDictionary)) Demo.st0 "aa"
           eq_refl eq_refl eq_refl).
Defined.

(** C4 as stated fails twice: resuming after ["zz"], which is not in the
    list, checks the public room and tests the list from its first word;
    resuming after ["aa"] in a list that holds ["aa"] twice tests ["aa"]
    again. *)
Lemma crack_dictionary_resume_not_after :
  trace (snd (crack Demo.prims (Demo.env []) Demo.words Demo.packet
                (Demo.options 1 1 (Some "zz"%string) (Some RDictionary)) Demo.st0))
  = [EvPublic; EvDict 0 "aa"; EvDict 1 "bb"]
  /\ trace (snd (crack Demo.prims (Demo.env []) ["aa"; "cc"; "aa"]%string Demo.packet
                   (Demo.options 1 1 (Some "aa"%string) (Some RDictionary)) Demo.st0))
     = [EvDict 1 "cc"; EvDict 2 "aa"; EvBatch true 1 0 36].
Proof. split; vm_compute; reflexivity. Qed.

(** X16: resuming brute force after a legal name [W]
    of length [len] and index [idx] skips the public room and the
    dictionary (every event is an executor call), and the first call, if
    any, is at [(l, idx + 1)] with [l = max(startingLength, len)], or at
    [(l + 1, 0)] when [idx + 1] is past the last index of length [l]. *)
Theorem crack_bruteforce_resume (P : Prims) (env : Env) (wl : list string)
    (hex : string) (o : CrackOptions) (s : St) (W : string) (len : nat) (idx : Z)
    (Hsf : startFrom o = Some W) (Hty : startFromType o = Some RBruteforce)
    (Hidx : Enum.roomNameToIndex W = Some (len, idx)) :
  let l := Nat.max (opt 1%nat (startingLength o)) len in
  let start := if (Enum.countNamesForLength l <=? idx + 1)%Z
               then (S l, 0%Z) else (l, (idx + 1)%Z) in
  len = String.length W
  /\ exists evs, trace (snd (crack P env wl hex o s)) = trace s ++ evs
     /\ Forall is_batch evs
     /\ (evs = [] \/ exists c bs rest, evs = EvBatch c (fst start) (snd start) bs :: rest).
Proof.
  cbv zeta. split; [exact (ResumeFacts.roomNameToIndex_length W len idx Hidx)|].
  pose proof (ResumeFacts.resume_setup_bf wl (opt 1%nat (startingLength o)) o W len idx
                Hsf Hty Hidx) as Hrs.
  destruct (Enum.countNamesForLength (Nat.max (opt 1%nat (startingLength o)) len)
              <=? idx + 1)%Z eqn:E; simpl fst; simpl snd;
    destruct (ResumeFacts.crack_trace P env wl hex o _ _ _ _ Hrs s)
      as (evs & Ht & eA & eB & eC & -> & HA & HB1 & _ & HC);
    (destruct HA as [->|(_ & Hd & _)]; [|discriminate]);
    (destruct HB1 as [->|Hd]; [|discriminate]);
    exists eC; (split; [exact Ht|]); destruct HC as (Hb & H1 & _);
    (split; [exact Hb|]); apply H1.
  - apply ResumeFacts.count_pos.
  - apply Z.leb_gt in E. exact E.
Qed.

(** The resume after ["a"] (length 1, index 0). *)
Lemma crack_bruteforce_resume_witness :
  Enum.roomNameToIndex "a" = Some (1%nat, 0%Z)
  /\ (1%nat = String.length "a"
      /\ exists evs,
           trace (snd (crack Demo.prims (Demo.env []) [] Demo.packet
                         (Demo.options 1 1 (Some "a"%string) (Some RBruteforce)) Demo.st0))
           = trace Demo.st0 ++ evs
           /\ Forall is_batch evs
           /\ (evs = [] \/ exists c bs rest, evs = EvBatch c 1 1 bs :: rest)).
Proof.
  assert (Hidx : Enum.roomNameToIndex "a" = Some (1%nat, 0%Z)) by (vm_compute; reflexivity).
  split; [exact Hidx|].
  exact (crack_bruteforce_resume Demo.prims (Demo.env []) [] Demo.packet
           (Demo.options 1 1 (Some "a"%string) (Some RBruteforce)) Demo.st0 "a" 1 0
           eq_refl eq_refl Hidx).
Defined.

(** C5 fails when [startingLength] exceeds [|W|]: resuming after ["a"]
    (length 1, index 0) with [startingLength = maxLength = 3] raises the
    length to 3 but keeps the offset [0 + 1] of length 1, so the run
    starts at [(3, 1)] and never dispatches index 0 of length 3, the name
    ["aaa"], which a fresh run with the same options starts with. *)
Theorem crack_bruteforce_resume_skips_first :
  let resumed := crack Demo.prims (Demo.env []) [] Demo.packet
                   (Demo.options 3 3 (Some "a"%string) (Some RBruteforce)) Demo.st0 in
  let fresh := crack Demo.prims (Demo.env []) [] Demo.packet
                 (Demo.options 3 3 None None) Demo.st0 in
  Enum.roomNameToIndex "a" = Some (1%nat, 0%Z)
  /\ Enum.indexToRoomName 3 0 = Some "aaa"%string
  /\ first_batch (trace (snd resumed)) = Some (3%nat, 1%Z)
  /\ forallb (fun e => match e with
                       | EvBatch _ L off _ => (L =? 3)%nat && (1 <=? off)%Z
                       | _ => false
                       end) (trace (snd resumed)) = true
  /\ first_batch (trace (snd fresh)) = Some (3%nat, 0%Z).
Proof. vm_compute. repeat split; reflexivity. Qed.

(* ================================================================== *)
(** * Further properties of the code *)

(** ** Word lists *)

Module WordFacts.

Lemma in_alphabet_valid (c : ascii) : Enum.in_alphabet c = Words.valid_char c.
Proof. destruct c as [[] [] [] [] [] [] [] []]; reflexivity. Qed.

Lemma alnum_valid (c : ascii) :
  Words.alnum c = Words.valid_char c && negb (Ascii.eqb c Enum.dash).
Proof. destruct c as [[] [] [] [] [] [] [] []]; reflexivity. Qed.

Lemma valid_dot (c : ascii) : Words.valid_char c = true -> Words.dot c = true.
Proof. destruct c as [[] [] [] [] [] [] [] []]; vm_compute; congruence. Qed.

Lemma valid_not_ws (c : ascii) : Words.valid_char c = true -> Js.is_ws c = false.
Proof. destruct c as [[] [] [] [] [] [] [] []]; vm_compute; congruence. Qed.

Lemma forallb_in_alphabet (l : list ascii) :
  forallb Enum.in_alphabet l = forallb Words.valid_char l.
Proof. induction l as [|c l IH]; simpl; [|rewrite in_alphabet_valid, IH]; reflexivity. Qed.

Lemma forallb_valid_dot (l : list ascii) :
  forallb Words.valid_char l = true -> forallb Words.dot l = true.
Proof.
  induction l as [|c l IH]; simpl; [reflexivity|].
  intros H. apply andb_prop in H as [H1 H2]. rewrite valid_dot, IH; auto.
Qed.

Lemma last_cons_last (c cl : ascii) (mid : list ascii) (d : ascii) :
  last (c :: mid ++ [cl]) d = cl.
Proof. change (c :: mid ++ [cl]) with ((c :: mid) ++ [cl]). apply last_last. Qed.

(** The test of the build script is the room-name grammar. *)
Lemma build_keep_legal (w : string) :
  ((0 <? String.length w)%nat && BuildWordlist.validRoomName w
   && negb (Enum.has_double_dash (list_ascii_of_string w))) = Enum.legal_name w.
Proof.
  unfold BuildWordlist.validRoomName, Enum.legal_name.
  rewrite <- EnumFacts.length_list_ascii.
  destruct (list_ascii_of_string w) as [|c rest]; [reflexivity|].
  destruct rest as [|c1 rest'].
  - simpl. rewrite in_alphabet_valid, alnum_valid.
    destruct (Words.valid_char c), (Ascii.eqb c Enum.dash); reflexivity.
  - destruct (exists_last (l := c1 :: rest') ltac:(discriminate)) as [mid [cl E]].
    rewrite E. clear E c1 rest'.
    rewrite last_cons_last, removelast_last, last_last.
    destruct mid as [|m0 mid']; [simpl|];
    change (forallb Enum.in_alphabet (c :: ?l)) with (Enum.in_alphabet c && forallb Enum.in_alphabet l);
    rewrite ?forallb_app, ?forallb_in_alphabet; simpl;
    rewrite !in_alphabet_valid, !alnum_valid;
    destruct (Words.valid_char c), (Words.valid_char cl), (Ascii.eqb c Enum.dash),
             (Ascii.eqb cl Enum.dash); simpl; rewrite ?andb_true_r, ?andb_false_r; reflexivity.
Qed.

(** The filter of [setWordlist] accepts the legal names and ["-"]. *)
Lemma isValidRoomName_legal (w : string) :
  Words.isValidRoomName w = Enum.legal_name w || String.eqb w "-".
Proof.
  destruct w as [|c r]; [reflexivity|].
  destruct r as [|c1 r1]; [destruct c as [[] [] [] [] [] [] [] []]; reflexivity|].
  replace (String.eqb (String c (String c1 r1)) "-") with false
    by (simpl; destruct (Ascii.eqb c "-"); reflexivity).
  rewrite orb_false_r.
  assert (Hnd : Words.NO_DASH_AT_ENDS (String c (String c1 r1))
                = Words.alnum c && Words.alnum (last (c1 :: list_ascii_of_string r1) c)
                  && forallb Words.dot (removelast (c1 :: list_ascii_of_string r1)))
    by reflexivity.
  unfold Words.isValidRoomName. rewrite Hnd.
  unfold Words.VALID_CHARS, Words.NO_CONSECUTIVE_DASHES, Enum.legal_name.
  rewrite <- !EnumFacts.length_list_ascii.
  change (list_ascii_of_string (String c (String c1 r1)))
    with (c :: c1 :: list_ascii_of_string r1).
  destruct (exists_last (l := c1 :: list_ascii_of_string r1) ltac:(discriminate))
    as [mid [cl E]].
  rewrite E. rewrite last_cons_last, removelast_last, last_last.
  set (dd := Enum.has_double_dash (c :: mid ++ [cl])).
  replace (List.length (c :: mid ++ [cl])) with (S (S (List.length mid)))
    by (simpl; rewrite length_app; simpl; lia).
  change (forallb ?f (c :: ?l)) with (f c && forallb f l).
  rewrite !forallb_app, forallb_in_alphabet.
  cbn [forallb Js.truthy orb negb andb Nat.eqb Nat.ltb Nat.leb].
  rewrite !in_alphabet_valid, !alnum_valid.
  destruct (forallb Words.valid_char mid) eqn:Em;
    [rewrite (forallb_valid_dot mid Em)|];
    destruct (Words.valid_char c), (Words.valid_char cl), (Ascii.eqb c Enum.dash),
             (Ascii.eqb cl Enum.dash), dd;
    simpl; rewrite ?andb_true_r, ?andb_false_r; reflexivity.
Qed.

Lemma drop_ws_id (l : list ascii) :
  Forall (fun c => Js.is_ws c = false) l -> Js.drop_ws l = l.
Proof. intros H. destruct H as [|c l Hc _]; simpl; [reflexivity|]. rewrite Hc. reflexivity. Qed.

Lemma trim_alphabetic (w : string) :
  Forall (fun c => Enum.in_alphabet c = true) (list_ascii_of_string w) -> Js.trim w = w.
Proof.
  intros H.
  assert (Hw : Forall (fun c => Js.is_ws c = false) (list_ascii_of_string w)).
  { eapply Forall_impl; [|exact H]. intros c Hc. apply valid_not_ws.
    rewrite <- in_alphabet_valid. exact Hc. }
  unfold Js.trim. rewrite (drop_ws_id _ Hw).
  rewrite (drop_ws_id (rev _)) by (apply Forall_rev; exact Hw).
  rewrite rev_involutive. apply string_of_list_ascii_of_string.
Qed.

(** Normalising a word the filter accepts gives the word back. *)
Lemma normalize_valid (w : string) :
  Words.isValidRoomName w = true -> Words.normalize w = w.
Proof.
  rewrite isValidRoomName_legal. intros H. apply orb_prop in H as [H|H].
  - destruct (EnumFacts.legal_fits w H) as (_ & Hall & _).
    unfold Words.normalize. rewrite (trim_alphabetic w Hall).
    exact (ResumeFacts.lower_alphabetic w Hall).
  - apply String.eqb_eq in H. subst w. reflexivity.
Qed.

Lemma filter_all {A} (f : A -> bool) (l : list A) :
  (forall x, In x l -> f x = true) -> filter f l = l.
Proof.
  induction l as [|x l IH]; simpl; intros H; [reflexivity|].
  rewrite (H x (or_introl eq_refl)), IH; [reflexivity|]. intros y Hy. apply H. right. exact Hy.
Qed.

(** [setWordlist] stores a list of accepted words unchanged. *)
Lemma setWordlist_id (ws : list string) :
  (forall w, In w ws -> Words.isValidRoomName w = true) -> Words.setWordlist ws = ws.
Proof.
  intros H. unfold Words.setWordlist.
  rewrite (map_ext_in Words.normalize (fun w => w)) by (intros w Hw; apply normalize_valid, H, Hw).
  rewrite map_id. apply filter_all. exact H.
Qed.

End WordFacts.

(** X1: the build script keeps exactly the lines of [words.txt] that,
    trimmed and lower-cased, are legal room names of the grammar
    (non-empty, characters [a-z0-9-], no [-] at either end, no [--]),
    in their order. *)
Theorem build_words_legal (rawWords : string) :
  BuildWordlist.words rawWords
  = filter Enum.legal_name (map Words.normalize (BuildWordlist.split_lines rawWords)).
Proof. unfold BuildWordlist.words. apply filter_ext. exact WordFacts.build_keep_legal. Qed.

(** X2: the runtime filter of [setWordlist] and [loadWordlist] accepts a
    word exactly when it is a legal room name or the word ["-"]. *)
Theorem isValidRoomName_iff (w : string) :
  Words.isValidRoomName w = true <-> Enum.legal_name w = true \/ w = "-"%string.
Proof.
  rewrite WordFacts.isValidRoomName_legal, orb_true_iff, String.eqb_eq. reflexivity.
Qed.

(** X3: giving [setWordlist] the list the build script generates stores
    that list unchanged: no word is dropped, altered or reordered. *)
Theorem setWordlist_build_words (rawWords : string) :
  Words.setWordlist (BuildWordlist.words rawWords) = BuildWordlist.words rawWords.
Proof.
  apply WordFacts.setWordlist_id. intros w Hw.
  unfold BuildWordlist.words in Hw. apply filter_In in Hw as [_ Hk].
  rewrite WordFacts.build_keep_legal in Hk.
  rewrite WordFacts.isValidRoomName_legal, Hk. reflexivity.
Qed.

(** X4: [setWordlist] is idempotent: passing it a list it stored stores
    the same list again. *)
Theorem setWordlist_idempotent (ws : list string) :
  Words.setWordlist (Words.setWordlist ws) = Words.setWordlist ws.
Proof.
  apply WordFacts.setWordlist_id. intros w Hw.
  unfold Words.setWordlist in Hw. apply filter_In in Hw as [_ Hv]. exact Hv.
Qed.

(** X5: [loadWordlist] stores exactly what [setWordlist] stores for the
    lines of the response body; its extra empty-line filter never removes
    a word the room-name filter would keep. *)
Theorem loadWordlist_text_setWordlist (text : string) :
  Words.loadWordlist_text text = Words.setWordlist (Js.split "010"%char text).
Proof.
  unfold Words.loadWordlist_text, Words.setWordlist.
  induction (map Words.normalize (Js.split "010"%char text)) as [|w l IH];
    simpl; [reflexivity|].
  destruct (String.length w =? 0)%nat eqn:E; simpl.
  - replace (Words.isValidRoomName w) with false; [exact IH|].
    destruct w; [reflexivity|discriminate].
  - destruct (Words.isValidRoomName w); rewrite IH; reflexivity.
Qed.

(** ** The portable batch executor *)

Module BatchFacts.

Lemma runBatch_filter (P : Prims) (t : num) (L : nat) (off bs : Z) (ct mac : option string) :
  runBatch P t L off bs ct mac
  = filter (runBatch_test P t L ct mac) (map (Z.add off) (zrange bs)).
Proof.
  unfold runBatch. cbv zeta.
  match goal with |- fold_left ?f _ _ = _ => set (step := f) end.
  assert (Hstep : forall m i, step m i
            = if runBatch_test P t L ct mac (off + i) then m ++ [(off + i)%Z] else m).
  { intros m i. unfold step, runBatch_test, opt. cbv zeta.
    destruct (Enum.indexToRoomName L (off + i)) as [name|]; [|reflexivity].
    destruct (getChannelHash P _ =? _)%string; [|reflexivity].
    destruct ct as [c|], mac as [m'|]; simpl; try reflexivity.
    destruct (Js.truthy c && Js.truthy m'); simpl; [|reflexivity].
    destruct (verifyMac _ _ _ _); reflexivity. }
  assert (G : forall l acc, fold_left step l acc
                            = acc ++ filter (runBatch_test P t L ct mac) (map (Z.add off) l)).
  { induction l as [|i l IH]; intros acc; simpl; [rewrite app_nil_r; reflexivity|].
    rewrite IH, Hstep. destruct (runBatch_test P t L ct mac (off + i));
      simpl; [rewrite <- app_assoc|]; reflexivity. }
  rewrite G. reflexivity.
Qed.

Lemma sorted_shifted (off : Z) (a n : nat) :
  StronglySorted Z.lt (map (fun k => off + Z.of_nat k)%Z (seq a n)).
Proof.
  revert a. induction n as [|n IH]; intros a; simpl; constructor; [apply IH|].
  apply Forall_forall. intros y Hy. apply in_map_iff in Hy as [k [<- Hk]].
  apply in_seq in Hk. lia.
Qed.

Lemma StronglySorted_filter {A} (R : A -> A -> Prop) (f : A -> bool) (l : list A) :
  StronglySorted R l -> StronglySorted R (filter f l).
Proof.
  induction 1 as [|x l _ IH HF]; simpl; [constructor|].
  destruct (f x); [|exact IH]. constructor; [exact IH|].
  apply Forall_forall. intros y Hy. apply filter_In in Hy as [Hy _].
  rewrite Forall_forall in HF. exact (HF y Hy).
Qed.

Lemma map_seq_shift {B} (g : nat -> B) (n m : nat) :
  map g (seq n m) = map (fun k => g (n + k)%nat) (seq 0 m).
Proof.
  revert n. induction m as [|m IH]; intros n; [reflexivity|].
  simpl. rewrite Nat.add_0_r. f_equal. rewrite IH, <- seq_shift, map_map.
  apply map_ext. intros k. f_equal. lia.
Qed.

Lemma zrange_split (off a b : Z) :
  (0 <= a)%Z -> (0 <= b)%Z ->
  map (Z.add off) (zrange (a + b))
  = map (Z.add off) (zrange a) ++ map (Z.add (off + a)) (zrange b).
Proof.
  intros Ha Hb. unfold zrange. rewrite Z2Nat.inj_add by assumption.
  rewrite seq_app, !map_map, map_app. f_equal.
  rewrite map_seq_shift. apply map_ext. intros k. simpl. lia.
Qed.

End BatchFacts.

(** X6: [runBatch] returns its indices in strictly increasing order, so
    without repeats; [crack] therefore checks the matches of a batch in
    enumeration order. *)
Theorem runBatch_increasing (P : Prims) (t : num) (L : nat) (off bs : Z)
    (ct mac : option string) :
  StronglySorted Z.lt (runBatch P t L off bs ct mac).
Proof.
  rewrite BatchFacts.runBatch_filter. apply BatchFacts.StronglySorted_filter.
  unfold zrange. rewrite map_map. apply BatchFacts.sorted_shifted.
Qed.

(** X7: splitting a batch changes nothing: for [a, b >= 0], one call of
    size [a + b] at [offset] returns the results of a call of size [a] at
    [offset] followed by those of a call of size [b] at [offset + a]. *)
Theorem runBatch_split (P : Prims) (t : num) (L : nat) (off a b : Z)
    (ct mac : option string) (Ha : (0 <= a)%Z) (Hb : (0 <= b)%Z) :
  runBatch P t L off (a + b) ct mac
  = runBatch P t L off a ct mac ++ runBatch P t L (off + a) b ct mac.
Proof.
  rewrite !BatchFacts.runBatch_filter, BatchFacts.zrange_split by assumption.
  apply filter_app.
Qed.

(** The split at a batch of 36 names of length 1 cut after 10. *)
Lemma runBatch_split_witness :
  (0 <= 10)%Z /\ (0 <= 26)%Z
  /\ runBatch Demo.prims (Some 0%Z) 1 0 (10 + 26) None None
     = runBatch Demo.prims (Some 0%Z) 1 0 10 None None
       ++ runBatch Demo.prims (Some 0%Z) 1 (0 + 10) 26 None None.
Proof.
  split; [lia|]. split; [lia|].
  apply (runBatch_split Demo.prims (Some 0%Z) 1 0 10 26 None None); lia.
Defined.

(** ** Packet decoding *)

Module DecodeFacts.

Lemma filter_drop_ws (l : list ascii) : filter not_ws (Js.drop_ws l) = filter not_ws l.
Proof.
  induction l as [|c l IH]; [reflexivity|]. cbn [Js.drop_ws].
  destruct (Js.is_ws c) eqn:E; [|reflexivity].
  rewrite IH. cbn [filter].
  replace (not_ws c) with false by (unfold not_ws; rewrite E; reflexivity). reflexivity.
Qed.

Lemma filter_rev' {A} (f : A -> bool) (l : list A) : filter f (rev l) = rev (filter f l).
Proof.
  induction l as [|x l IH]; simpl; [reflexivity|].
  rewrite filter_app, IH. simpl. destruct (f x); simpl; [|rewrite app_nil_r]; reflexivity.
Qed.

Lemma filter_trim (s : string) :
  filter not_ws (list_ascii_of_string (Js.trim s)) = filter not_ws (list_ascii_of_string s).
Proof.
  unfold Js.trim. rewrite list_ascii_of_string_of_list_ascii.
  rewrite filter_rev', filter_drop_ws, filter_rev', rev_involutive, filter_drop_ws.
  reflexivity.
Qed.

Lemma filter_twice {A} (f : A -> bool) (l : list A) : filter f (filter f l) = filter f l.
Proof. apply WordFacts.filter_all. intros x Hx. apply filter_In in Hx. apply Hx. Qed.

(** [decodePacket] depends on its input only through [cleanHex]. *)
Lemma decodePacket_clean (P : Prims) (s1 s2 : string) :
  strip_0x (filter not_ws (list_ascii_of_string (Js.trim s1)))
  = strip_0x (filter not_ws (list_ascii_of_string (Js.trim s2))) ->
  decodePacket P s1 = decodePacket P s2.
Proof. intros H. unfold decodePacket. fold not_ws. rewrite H. reflexivity. Qed.

Lemma strip_0x_hex (l : list ascii) :
  forallb is_hex_digit l = true -> strip_0x l = l.
Proof.
  destruct l as [|a [|b r]];
    [reflexivity|destruct a as [[] [] [] [] [] [] [] []]; reflexivity|].
  intros H. cbn [forallb] in H. apply andb_prop in H as [_ H]. apply andb_prop in H as [Hb _].
  unfold strip_0x.
  destruct (Ascii.eqb b "x" || Ascii.eqb b "X")%bool eqn:Ex.
  - apply orb_prop in Ex as [E|E]; apply Ascii.eqb_eq in E; subst b; discriminate Hb.
  - destruct a as [[] [] [] [] [] [] [] []]; cbv iota beta; try rewrite Ex; reflexivity.
Qed.

End DecodeFacts.

(** X8: white space anywhere in the packet hex (spaces, tabs, line
    breaks, also inside the digits) does not change the decoding. *)
Theorem decodePacket_ignores_ws (P : Prims) (packetHex : string) :
  decodePacket P packetHex = decodePacket P (strip_ws packetHex).
Proof.
  apply DecodeFacts.decodePacket_clean. f_equal.
  rewrite !DecodeFacts.filter_trim. unfold strip_ws.
  rewrite list_ascii_of_string_of_list_ascii. symmetry. apply DecodeFacts.filter_twice.
Qed.

(** X9: a [0x] or [0X] prefix is optional: when the non-white-space
    characters of [packetHex] are hex digits, prefixing it with [0x] or
    [0X] gives the same decoding. *)
Theorem decodePacket_0x_prefix (P : Prims) (packetHex : string)
    (Hhex : forallb is_hex_digit (list_ascii_of_string (strip_ws packetHex)) = true) :
  decodePacket P ("0x" ++ packetHex) = decodePacket P packetHex
  /\ decodePacket P ("0X" ++ packetHex) = decodePacket P packetHex.
Proof.
  unfold strip_ws in Hhex. rewrite list_ascii_of_string_of_list_ascii in Hhex.
  assert (E : forall c, c = "x"%char \/ c = "X"%char ->
             strip_0x (filter not_ws (list_ascii_of_string (String "0" (String c packetHex))))
             = filter not_ws (list_ascii_of_string packetHex))
    by (intros c [-> | ->]; reflexivity).
  split; apply DecodeFacts.decodePacket_clean; rewrite !DecodeFacts.filter_trim;
    rewrite (DecodeFacts.strip_0x_hex
               (filter not_ws (list_ascii_of_string packetHex)) Hhex);
    apply E; auto.
Qed.

(** The prefix at the packet of the repository's test vector shape. *)
Lemma decodePacket_0x_prefix_witness :
  forallb is_hex_digit (list_ascii_of_string (strip_ws " 15 00")) = true
  /\ decodePacket Demo.prims ("0x" ++ " 15 00") = decodePacket Demo.prims " 15 00"
  /\ decodePacket Demo.prims ("0X" ++ " 15 00") = decodePacket Demo.prims " 15 00".
Proof.
  split; [vm_compute; reflexivity|].
  apply (decodePacket_0x_prefix Demo.prims " 15 00"). vm_compute. reflexivity.
Defined.

(** ** The hash-indexed dictionary *)

Module DictFacts.
Import Dict.

Lemma map_push_map (m : dict_entries) (z : Z) (x : IndexedWord) :
  NoDup (map fst m) -> In z (map fst m) ->
  map_push m (Some z) x
  = Some (map (fun e => (fst e, if Z.eqb (fst e) z then snd e ++ [x] else snd e)) m).
Proof.
  induction m as [|[k v] m IH]; simpl; intros Hnd Hin; [contradiction|].
  inversion Hnd as [|? ? Hk Hnd']; subst.
  destruct (Z.eqb_spec k z) as [->|Hne].
  - f_equal. f_equal. rewrite <- (map_id m) at 1. apply map_ext_in.
    intros [k' v'] Hm. simpl.
    destruct (Z.eqb_spec k' z) as [->|]; [|reflexivity].
    exfalso. apply Hk. apply in_map_iff. exists (z, v'). auto.
  - destruct Hin as [Hin|Hin]; [contradiction|].
    rewrite (IH Hnd' Hin). reflexivity.
Qed.

Lemma map_get_shift (m : dict_entries) (B : num -> list IndexedWord) (h : num) :
  map_get (map (fun e => (fst e, snd e ++ B (Some (fst e)))) m) h
  = option_map (fun v => v ++ B h) (map_get m h).
Proof.
  induction m as [|[k v] m IH]; cbn [map map_get fst snd]; [reflexivity|].
  destruct (num_eq (Some k) h) eqn:E; [|exact IH].
  destruct (NumFacts.num_eq_spec _ _ E) as [<- _]. reflexivity.
Qed.

Lemma build_loop_map (P : Prims) (ws : list string) (i n : nat) (p : bool) (m : dict_entries) :
  covers_bytes m ->
  exists reps, build_loop P ws i n p m
    = Some (map (fun e => (fst e, snd e ++ indexed_bucket P ws (Some (fst e)))) m, reps).
Proof.
  revert i m. induction ws as [|w ws IH]; intros i m Hc; cbn [build_loop].
  - exists []. f_equal. f_equal. rewrite <- (map_id m) at 1. apply map_ext.
    intros [k v]. simpl. rewrite app_nil_r. reflexivity.
  - destruct Hc as [Hnd Hall].
    rewrite NumFacts.parse_channel_hash.
    set (z := (keyDigest P (deriveKeyFromRoomName P ("#" ++ w)) mod 256)%Z).
    set (x := {| word := w; key := deriveKeyFromRoomName P ("#" ++ w) |}).
    assert (Hz : In z (map fst m)) by (apply Hall, Z.mod_pos_bound; lia).
    rewrite (map_push_map m z x Hnd Hz).
    set (m1 := map _ m).
    assert (Hk : map fst m1 = map fst m) by (unfold m1; rewrite map_map; reflexivity).
    destruct (IH (S i) m1) as [reps Hr]; [split; rewrite Hk; auto|].
    rewrite Hr. eexists. f_equal. f_equal. unfold m1. rewrite map_map.
    apply map_ext. intros [k v]. simpl. f_equal.
    unfold indexed_bucket at 2. cbn [filter].
    fold z. replace (num_eq (Some z) (Some k)) with (Z.eqb k z)
      by (simpl; apply Z.eqb_sym).
    destruct (Z.eqb k z); simpl; [rewrite <- app_assoc|]; reflexivity.
Qed.

Lemma build_map (P : Prims) (d : DictionaryIndex) (ws : list string) (p : bool) :
  covers_bytes (byHash d) ->
  exists d' reps, build P d ws p = Some (d', reps)
    /\ byHash d' = map (fun e => (fst e, snd e ++ indexed_bucket P ws (Some (fst e)))) (byHash d)
    /\ totalWords d' = List.length ws.
Proof.
  intros Hc. destruct (build_loop_map P ws 0 (List.length ws) p (byHash d) Hc) as [reps Hr].
  unfold build. rewrite Hr. eexists _, _. split; [reflexivity|]. split; reflexivity.
Qed.

Lemma covers_map (m : dict_entries) (f : Z -> list IndexedWord -> list IndexedWord) :
  covers_bytes m -> covers_bytes (map (fun e => (fst e, f (fst e) (snd e))) m).
Proof. unfold covers_bytes. rewrite map_map. simpl. exact (fun H => H). Qed.

Lemma nodup_seqZ (a k : nat) : NoDup (map Z.of_nat (seq a k)).
Proof.
  revert a. induction k as [|k IH]; intros a; simpl; [constructor|constructor; [|apply IH]].
  intros Hin. apply in_map_iff in Hin as [j [Hj Hin]]. apply in_seq in Hin. lia.
Qed.

Lemma covers_new : covers_bytes (byHash new_index).
Proof.
  unfold covers_bytes.
  replace (map fst (byHash new_index)) with (map Z.of_nat (seq 0 256))
    by (unfold new_index; cbn [byHash]; rewrite map_map; reflexivity).
  split; [apply nodup_seqZ|].
  intros z Hz. apply in_map_iff. exists (Z.to_nat z). split; [lia|]. apply in_seq. lia.
Qed.

(** Every byte has an empty bucket in a new index. *)
Lemma new_get (h : num) :
  map_get (byHash new_index) h = Some []
  \/ (map_get (byHash new_index) h = None
      /\ forall z, h = Some z -> (z < 0 \/ 256 <= z)%Z).
Proof.
  change (byHash new_index) with (map (fun i => (Z.of_nat i, @nil IndexedWord)) (seq 0 256)).
  assert (G : forall k a, map_get (map (fun i => (Z.of_nat i, @nil IndexedWord)) (seq a k)) h = Some []
                \/ (map_get (map (fun i => (Z.of_nat i, @nil IndexedWord)) (seq a k)) h = None
                    /\ forall z, h = Some z -> (z < Z.of_nat a \/ Z.of_nat (a + k) <= z)%Z)).
  { induction k as [|k IH]; intros a; cbn [seq map map_get].
    - right. split; [reflexivity|]. intros z _. lia.
    - destruct (num_eq (Some (Z.of_nat a)) h) eqn:E; [left; reflexivity|].
      destruct (IH (S a)) as [H|[H1 H2]]; [left; exact H|right].
      split; [exact H1|]. intros z ->. simpl in E. apply Z.eqb_neq in E.
      specialize (H2 z eq_refl). lia. }
  exact (G 256%nat 0%nat).
Qed.

Lemma bucket_out_of_range (P : Prims) (ws : list string) (h : num) :
  (forall z, h = Some z -> (z < 0 \/ 256 <= z)%Z) -> indexed_bucket P ws h = [].
Proof.
  intros Hh. unfold indexed_bucket.
  replace (filter _ ws) with (@nil string); [reflexivity|].
  induction ws as [|w ws IH]; cbn [filter]; [reflexivity|].
  match goal with |- context [num_eq ?a h] => destruct (num_eq a h) eqn:E end;
    [|exact IH].
  destruct (NumFacts.num_eq_spec _ _ E) as [<- _].
  specialize (Hh _ eq_refl).
  pose proof (Z.mod_pos_bound (keyDigest P (deriveKeyFromRoomName P ("#" ++ w))) 256
                ltac:(lia)). lia.
Qed.

(** [lookup] on an index built from a new one by [builds]. *)
Lemma lookup_built (d : DictionaryIndex) (B : num -> list IndexedWord) (h : num) :
  byHash d = map (fun e => (fst e, snd e ++ B (Some (fst e)))) (byHash new_index) ->
  (forall z, h = Some z -> (z < 0 \/ 256 <= z)%Z) \/ True ->
  lookup d h = match map_get (byHash new_index) h with
               | Some _ => B h
               | None => []
               end.
Proof.
  intros Hd _. unfold lookup. rewrite Hd, map_get_shift.
  destruct (new_get h) as [E|[E _]]; rewrite E; reflexivity.
Qed.

Lemma stats_fold (m : dict_entries) (mx ne s0 : nat) :
  (mx <= s0)%nat -> (s0 <= ne * mx)%nat ->
  let r := fold_left (fun '(maxB, nonEmpty) (e : Z * list IndexedWord) =>
                        let ws := snd e in
                        if (0 <? List.length ws)%nat
                        then (Nat.max maxB (List.length ws), S nonEmpty)
                        else (maxB, nonEmpty)) m (mx, ne) in
  (fst r <= s0 + bucket_sizes m)%nat /\ (s0 + bucket_sizes m <= snd r * fst r)%nat
  /\ (snd r <= ne + List.length m)%nat.
Proof.
  cbv zeta. revert mx ne s0. induction m as [|[k v] m IH]; intros mx ne s0 H1 H2.
  - cbn. lia.
  - cbn [fold_left snd].
    change (bucket_sizes ((k, v) :: m)) with (List.length v + bucket_sizes m)%nat.
    change (List.length ((k, v) :: m)) with (S (List.length m)).
    destruct (Nat.ltb_spec 0 (List.length v)).
    + destruct (IH (Nat.max mx (List.length v)) (S ne) (s0 + List.length v)) as (A & B & C);
        [destruct (Nat.max_spec mx (List.length v)) as [[Hm ->]|[Hm ->]]; nia..|]. lia.
    + destruct (IH mx ne (s0 + List.length v)) as (A & B & C); [lia|lia|]. lia.
Qed.

Lemma count_byte (x : Z) (a k : nat) :
  (Z.of_nat a <= x < Z.of_nat (a + k))%Z ->
  fold_right (fun i acc => (if Z.eqb x (Z.of_nat i) then 1 else 0) + acc)%nat 0%nat (seq a k) = 1%nat.
Proof.
  revert a. induction k as [|k IH]; intros a Hx; simpl; [lia|].
  destruct (Z.eqb_spec x (Z.of_nat a)) as [->|Hne].
  - assert (G : forall a' k', (Z.of_nat a < Z.of_nat a')%Z ->
                fold_right (fun i acc => (if Z.eqb (Z.of_nat a) (Z.of_nat i) then 1 else 0) + acc)%nat
                  0%nat (seq a' k') = 0%nat).
    { intros a' k'. revert a'. induction k' as [|k' IH']; intros a' Ha; simpl; [reflexivity|].
      destruct (Z.eqb_spec (Z.of_nat a) (Z.of_nat a')); [lia|]. apply IH'. lia. }
    rewrite G; lia.
  - apply IH. lia.
Qed.

Lemma sizes_buckets (P : Prims) (ws : list string) :
  fold_right (fun i acc => List.length (indexed_bucket P ws (Some (Z.of_nat i))) + acc)%nat
    0%nat (seq 0 256) = List.length ws.
Proof.
  induction ws as [|w ws IH].
  - generalize (seq 0 256). intros l.
    induction l as [|i l IHl]; simpl; [reflexivity|]. exact IHl.
  - set (x := (keyDigest P (deriveKeyFromRoomName P ("#" ++ w)) mod 256)%Z).
    assert (Hb : forall i, List.length (indexed_bucket P (w :: ws) (Some (Z.of_nat i)))
                 = ((if Z.eqb x (Z.of_nat i) then 1 else 0)
                    + List.length (indexed_bucket P ws (Some (Z.of_nat i))))%nat).
    { intros i. unfold indexed_bucket. cbn [filter]. fold x.
      simpl num_eq. destruct (Z.eqb x (Z.of_nat i)); reflexivity. }
    assert (G : forall l, fold_right (fun i acc =>
                   List.length (indexed_bucket P (w :: ws) (Some (Z.of_nat i))) + acc)%nat 0%nat l
                 = (fold_right (fun i acc => (if Z.eqb x (Z.of_nat i) then 1 else 0) + acc)%nat 0%nat l
                    + fold_right (fun i acc =>
                        List.length (indexed_bucket P ws (Some (Z.of_nat i))) + acc)%nat 0%nat l)%nat).
    { induction l as [|i l IHl]; simpl; [reflexivity|]. rewrite Hb, IHl. lia. }
    rewrite G, IH, count_byte; [reflexivity|].
    pose proof (Z.mod_pos_bound (keyDigest P (deriveKeyFromRoomName P ("#" ++ w))) 256
                  ltac:(lia)). fold x in H. simpl. lia.
Qed.

End DictFacts.

(** X10: building a new index never throws; afterwards [size()] is the
    number of words and [lookup(h)] returns, in word-list order, every
    word whose key has channel-hash byte [h], each with its precomputed
    key.  Any other argument (outside [0 .. 255], or [NaN]) gives []. *)
Theorem build_lookup (P : Prims) (ws : list string) (onProgress : bool) :
  exists d reports, Dict.build P Dict.new_index ws onProgress = Some (d, reports)
    /\ Dict.size d = List.length ws
    /\ forall h, Dict.lookup d h = indexed_bucket P ws h.
Proof.
  destruct (DictFacts.build_map P Dict.new_index ws onProgress DictFacts.covers_new)
    as (d & reps & Hb & Hd & Ht).
  exists d, reps. split; [exact Hb|]. split; [exact Ht|]. intros h.
  rewrite (DictFacts.lookup_built d _ h Hd (or_intror I)).
  destruct (DictFacts.new_get h) as [E|[E Hz]]; rewrite E; [reflexivity|].
  symmetry. apply DictFacts.bucket_out_of_range. exact Hz.
Qed.

(** X11: [build] does not clear the buckets: building the same index a
    second time keeps the words of the first list in the buckets (before
    those of the second), while [size()] reports only the second list's
    length. *)
Theorem build_twice (P : Prims) (ws1 ws2 : list string) (p1 p2 : bool) :
  exists d1 r1 d2 r2, Dict.build P Dict.new_index ws1 p1 = Some (d1, r1)
    /\ Dict.build P d1 ws2 p2 = Some (d2, r2)
    /\ Dict.size d2 = List.length ws2
    /\ forall h, Dict.lookup d2 h = indexed_bucket P ws1 h ++ indexed_bucket P ws2 h.
Proof.
  destruct (DictFacts.build_map P Dict.new_index ws1 p1 DictFacts.covers_new)
    as (d1 & r1 & Hb1 & Hd1 & _).
  assert (Hc1 : covers_bytes (Dict.byHash d1)).
  { rewrite Hd1. apply (DictFacts.covers_map _ (fun k v => v ++ indexed_bucket P ws1 (Some k))).
    exact DictFacts.covers_new. }
  destruct (DictFacts.build_map P d1 ws2 p2 Hc1) as (d2 & r2 & Hb2 & Hd2 & Ht2).
  exists d1, r1, d2, r2. split; [exact Hb1|]. split; [exact Hb2|]. split; [exact Ht2|].
  intros h. unfold Dict.lookup. rewrite Hd2, DictFacts.map_get_shift, Hd1, DictFacts.map_get_shift.
  destruct (DictFacts.new_get h) as [E|[E Hz]]; rewrite E; [reflexivity|].
  rewrite !DictFacts.bucket_out_of_range by exact Hz. reflexivity.
Qed.

(** X12: the statistics of an index built from a new one: [total] is
    the number of words, at most 256 buckets are non-empty, and the
    largest bucket holds at most [total] words and at least
    [total / buckets] of them ([total <= buckets * maxBucket]). *)
Theorem build_stats (P : Prims) (ws : list string) (onProgress : bool) :
  exists d reports, Dict.build P Dict.new_index ws onProgress = Some (d, reports)
    /\ Dict.total (Dict.getStats d) = List.length ws
    /\ (Dict.buckets (Dict.getStats d) <= 256)%nat
    /\ (Dict.maxBucket (Dict.getStats d) <= Dict.total (Dict.getStats d))%nat
    /\ (Dict.total (Dict.getStats d)
        <= Dict.buckets (Dict.getStats d) * Dict.maxBucket (Dict.getStats d))%nat.
Proof.
  destruct (DictFacts.build_map P Dict.new_index ws onProgress DictFacts.covers_new)
    as (d & reps & Hb & Hd & Ht).
  exists d, reps. split; [exact Hb|].
  assert (Hs : bucket_sizes (Dict.byHash d) = List.length ws).
  { rewrite Hd.
    change (Dict.byHash Dict.new_index)
      with (map (fun i => (Z.of_nat i, @nil Dict.IndexedWord)) (seq 0 256)).
    rewrite map_map.
    rewrite <- (DictFacts.sizes_buckets P ws). unfold bucket_sizes.
    generalize (seq 0 256). intros l.
    induction l as [|i l IHl]; [reflexivity|].
    cbn [map fold_right fst snd app]. f_equal. exact IHl. }
  assert (Hl : List.length (Dict.byHash d) = 256%nat)
    by (rewrite Hd, length_map; reflexivity).
  unfold Dict.getStats.
  pose proof (DictFacts.stats_fold (Dict.byHash d) 0 0 0 (le_n 0) (le_n 0)) as H.
  cbv zeta in H.
  destruct (fold_left _ (Dict.byHash d) (0%nat, 0%nat)) as [maxB nonEmpty].
  simpl in H |- *. rewrite Ht. rewrite Hs, Hl in H. lia.
Qed.

Module CrackCount.
Import TraceFacts.

Lemma appends_conj {A} (m : M A) (Q1 Q2 : A -> list event -> Prop) :
  appends m Q1 -> appends m Q2 -> appends m (fun a e => Q1 a e /\ Q2 a e).
Proof.
  intros H1 H2 s. destruct (H1 s) as (e1 & T1 & R1). destruct (H2 s) as (e2 & T2 & R2).
  rewrite T1 in T2. apply app_inv_head in T2. subst e2. exists e1. auto.
Qed.

Lemma totalChecked_app (e1 e2 : list event) :
  totalChecked (e1 ++ e2) = (totalChecked e1 + totalChecked e2)%Z.
Proof.
  unfold totalChecked. induction e1 as [|e e1 IH]; simpl; [reflexivity|]. rewrite IH. lia.
Qed.

Lemma count_nonneg (L : nat) : (0 <= Enum.countNamesForLength L)%Z.
Proof.
  destruct L as [|[|m]]; unfold Enum.countNamesForLength; [lia|lia|].
  assert (0 <= 37 ^ Z.of_nat m)%Z by (apply Z.pow_nonneg; lia). lia.
Qed.

Lemma indexOf_bound (w : string) (l : list string) (k : nat) :
  Js.indexOf w l = Some k -> (k < List.length l)%nat.
Proof.
  revert k. induction l as [|x l IH]; intros k; simpl; [discriminate|].
  destruct (String.eqb x w).
  - intros H. injection H as <-. lia.
  - destruct (Js.indexOf w l) as [k'|]; simpl; [|discriminate].
    intros H. injection H as <-. specialize (IH k' eq_refl). lia.
Qed.

Lemma roomNameToIndex_nonneg (W : string) (len : nat) (idx : Z) :
  Enum.roomNameToIndex W = Some (len, idx) -> (0 <= idx)%Z.
Proof.
  unfold Enum.roomNameToIndex. destruct (Enum.legal_name W) eqn:HL; [|discriminate].
  intros H. injection H as _ <-.
  pose proof (EnumFacts.legal_fits W HL) as Hf. cbv zeta in Hf.
  destruct Hf as (Hf & _ & _).
  apply EnumFacts.Forall2_rev' in Hf. rewrite EnumFacts.radices_palindrome in Hf.
  destruct (EnumFacts.digits_val_bounds _ _ Hf) as [H0 _]. exact H0.
Qed.

(** The starting position never lies before [startingLength], its offset
    lies in [0 .. countNamesForLength startL], and the dictionary start
    index is at most the length of the word list. *)
Lemma resume_setup_range (wl : list string) (n : nat) (o : CrackOptions) :
  let '(startL, startOff, dictStart, skipDict) := resume_setup wl n o in
  (n <= startL)%nat /\ (0 <= startOff)%Z
  /\ (startOff <= Enum.countNamesForLength startL)%Z
  /\ (dictStart <= List.length wl)%nat.
Proof.
  pose proof (count_nonneg n) as Cn.
  unfold resume_setup.
  destruct (startFrom o) as [sf|]; [|lia].
  destruct (Js.truthy sf); [|lia].
  destruct (opt RBruteforce (startFromType o)).
  - destruct (Js.indexOf _ wl) as [k|] eqn:Ei; [|lia].
    apply indexOf_bound in Ei. lia.
  - destruct (Enum.roomNameToIndex _) as [[len idx]|] eqn:Er; [|lia].
    apply roomNameToIndex_nonneg in Er.
    destruct (Z.leb_spec (Enum.countNamesForLength (Nat.max n len)) (idx + 1)).
    + pose proof (count_nonneg (S (Nat.max n len))). lia.
    + lia.
Qed.

Lemma fold_left_count (l : list nat) (a : Z) :
  fold_left (fun acc x => acc + Enum.countNamesForLength x)%Z l a
  = (a + fold_right (fun x acc => Enum.countNamesForLength x + acc) 0 l)%Z.
Proof.
  revert a. induction l as [|x l IH]; intros a; simpl; [lia|]. rewrite IH. lia.
Qed.

Lemma bf_remaining_step (L maxL startL : nat) (startOff : Z) :
  (L <= maxL)%nat ->
  bf_remaining L maxL startL startOff
  = (Enum.countNamesForLength L - (if (L =? startL)%nat then startOff else 0)
     + bf_remaining (S L) maxL startL startOff)%Z.
Proof.
  intros HL. unfold bf_remaining.
  replace (S maxL - L)%nat with (S (S maxL - S L)) by lia. reflexivity.
Qed.

Lemma bf_remaining_sum (k L maxL startL : nat) (startOff : Z) :
  (S maxL - L)%nat = k ->
  bf_remaining L maxL startL startOff
  = (fold_right (fun l acc => Enum.countNamesForLength l + acc) 0 (seq L k)
     - (if (L <=? startL)%nat && (startL <=? maxL)%nat then startOff else 0))%Z.
Proof.
  revert L. induction k as [|k IH]; intros L Hk.
  - unfold bf_remaining. rewrite Hk. simpl.
    destruct (Nat.leb_spec L startL), (Nat.leb_spec startL maxL); simpl; lia.
  - rewrite bf_remaining_step by lia. rewrite (IH (S L)) by lia.
    cbn [seq fold_right].
    destruct (Nat.eqb_spec L startL) as [->|Hne].
    + rewrite Nat.leb_refl. destruct (Nat.leb_spec (S startL) startL); [lia|].
      destruct (Nat.leb_spec startL maxL); simpl; lia.
    + destruct (Nat.leb_spec L startL), (Nat.leb_spec (S L) startL); simpl; lia.
Qed.

Section Loops.

Variable P : Prims.
Variable env : Env.
Variable vmf : string -> option (list N).
Variable target : num.

(** Phase 2 run to its end checks one candidate per word from [i]. *)
Lemma dict_loop_count (wl : list string) (fuel i : nat) :
  appends (dict_loop P env vmf target wl fuel i)
    (fun x evs => match x with
       | None => (List.length wl <= i + fuel)%nat ->
                 totalChecked evs = Z.of_nat (List.length wl - i)
       | Some r => found r = true \/ aborted r = Some true
       end).
Proof.
  revert i. induction fuel as [|f IH]; intros i; cbn [dict_loop].
  - apply appends_ret. intros H. replace (List.length wl - i)%nat with O by lia. reflexivity.
  - destruct (nth_error wl i) as [word|] eqn:Ew.
    2:{ apply appends_ret. intros _. apply nth_error_None in Ew.
        replace (List.length wl - i)%nat with O by lia. reflexivity. }
    assert (Hi : (i < List.length wl)%nat) by (apply nth_error_Some; congruence).
    eapply appends_bind; [apply appends_readAbort|]. intros ab e0 ->.
    destruct ab; [apply appends_ret; right; reflexivity|].
    eapply appends_bind; [apply appends_emit|]. intros _ e1 ->.
    assert (Hrest : appends (dict_loop P env vmf target wl f (S i))
       (fun x e2 => match x with
          | None => (List.length wl <= i + S f)%nat ->
                    totalChecked ([] ++ [EvDict i word] ++ e2) = Z.of_nat (List.length wl - i)
          | Some r => found r = true \/ aborted r = Some true
          end)).
    { eapply appends_weaken; [apply IH|]. intros [r|] e2 H; [exact H|]. intros Hl.
      change (totalChecked ([] ++ [EvDict i word] ++ e2)) with (1 + totalChecked e2)%Z.
      rewrite H by lia. lia. }
    destruct (num_eq _ target); [|exact Hrest].
    destruct (vmf _); [|exact Hrest].
    apply appends_ret. left. reflexivity.
Qed.

Lemma check_matches_found (L : nat) (ms : list Z) (r : CrackResult) :
  check_matches P vmf L ms = Some r -> found r = true.
Proof.
  induction ms as [|idx rest IH]; simpl; [discriminate|].
  destruct (Enum.indexToRoomName L idx); [|exact IH].
  destruct (vmf _); [|exact IH].
  intros H. injection H as <-. reflexivity.
Qed.

Variable useCpu : bool.
Variable ct mac : string.

(** One length of Phase 3: every batch lies in [offset .. total], is
    non-empty, and holds at most 1024 candidates on the CPU; run to its
    end, the batches cover [total - offset] candidates. *)
Lemma bf_offsets_count (fuel L : nat) (total offset cur : Z) (tuned : bool) :
  (1 <= cur)%Z -> (useCpu = true -> cur = 1024%Z) ->
  appends (bf_offsets P env vmf target useCpu ct mac fuel L total offset cur tuned)
    (fun x evs =>
       (forall e, In e evs -> exists off bs, e = EvBatch useCpu L off bs
          /\ (offset <= off)%Z /\ (0 < bs)%Z /\ (off + bs <= total)%Z
          /\ (useCpu = true -> bs <= 1024)%Z)
       /\ match x with
          | inl r => found r = true \/ aborted r = Some true
          | inr (cur', _) =>
              (1 <= cur')%Z /\ (useCpu = true -> cur' = 1024%Z)
              /\ ((offset <= total)%Z -> (Z.to_nat (total - offset) <= fuel)%nat ->
                  totalChecked evs = (total - offset)%Z)
          end).
Proof.
  revert offset cur tuned.
  induction fuel as [|f IH]; intros offset cur tuned Hc Hcpu; cbn [bf_offsets].
  - apply appends_ret. split; [intros e []|]. split; [exact Hc|]. split; [exact Hcpu|].
    intros H1 H2. change (totalChecked []) with 0%Z. lia.
  - destruct (offset <? total)%Z eqn:Ho.
    2:{ apply appends_ret. split; [intros e []|]. split; [exact Hc|]. split; [exact Hcpu|].
        intros H1 _. apply Z.ltb_ge in Ho. change (totalChecked []) with 0%Z. lia. }
    apply Z.ltb_lt in Ho.
    eapply appends_bind; [apply appends_readAbort|]. intros ab e0 ->.
    destruct ab.
    { apply appends_ret. split; [intros e []|]. right. reflexivity. }
    set (bs := Z.min cur (total - offset)).
    assert (Hbs : (0 < bs /\ offset + bs <= total /\ (useCpu = true -> bs <= 1024))%Z).
    { unfold bs. split; [lia|]. split; [lia|]. intros Hu. specialize (Hcpu Hu). lia. }
    eapply appends_bind.
    { unfold dispatch. eapply appends_bind; [apply appends_emit|].
      intros _ e1 ->. apply appends_ret.
      instantiate (1 := fun _ e => e = [EvBatch useCpu L offset bs]).
      simpl. reflexivity. }
    intros ms e1 ->.
    assert (Hcur : forall cur' tuned',
               (if negb useCpu && negb tuned && (INITIAL_BATCH_SIZE useCpu <=? bs)%Z
                then (Z.max (INITIAL_BATCH_SIZE useCpu) (gpu_tuned_batch env), true)
                else (cur, tuned)) = (cur', tuned') ->
               (1 <= cur')%Z /\ (useCpu = true -> cur' = 1024%Z)).
    { intros cur' tuned'. case_eq useCpu; intros Eu; simpl.
      - intros H. injection H as <- _. auto.
      - destruct (negb tuned && _)%bool; intros H; injection H as <- _.
        + unfold INITIAL_BATCH_SIZE. split; [lia|discriminate].
        + split; [exact Hc|discriminate]. }
    match goal with
    | |- context [match ?e with pair _ _ => _ end] =>
        destruct (Hcur _ _ (surjective_pairing e)) as [Hc' Hcpu'];
        destruct e as [cur' tuned']
    end.
    cbn [fst snd] in Hc', Hcpu'.
    destruct (check_matches P vmf L ms) as [r|] eqn:Ec.
    + apply appends_ret. split.
      * intros e He. simpl in He. destruct He as [<-|[]].
        exists offset, bs. repeat split; try lia; apply Hbs.
      * left. exact (check_matches_found _ _ _ Ec).
    + eapply appends_weaken; [apply (IH (offset + bs)%Z cur' tuned' Hc' Hcpu')|].
      intros x e2 [Hev Hx]. split.
      * intros e He. simpl in He. destruct He as [<-|He].
        -- exists offset, bs. repeat split; try lia; apply Hbs.
        -- destruct (Hev e He) as (o1 & b & -> & H1 & H2 & H3 & H4).
           exists o1, b. repeat split; auto; lia.
      * destruct x as [r|[c2 t2]]; [exact Hx|]. destruct Hx as (A & B & C).
        split; [exact A|]. split; [exact B|].
        intros H1 H2.
        change (totalChecked ([] ++ [EvBatch useCpu L offset bs] ++ e2))
          with (bs + totalChecked e2)%Z.
        rewrite C by lia. lia.
Qed.

(** Phase 3: every batch is at a length in [L .. maxL] and inside that
    length's index space; run to its end, the batches cover the
    candidates left from [(startL, startOff)]. *)
Lemma bf_lengths_count (fuel L maxL startL : nat) (startOff cur : Z) (tuned : bool) :
  (1 <= cur)%Z -> (useCpu = true -> cur = 1024%Z) -> (0 <= startOff)%Z ->
  appends (bf_lengths P env vmf target useCpu ct mac fuel L maxL startL startOff cur tuned)
    (fun x evs =>
       (forall e, In e evs -> exists L' off bs, e = EvBatch useCpu L' off bs
          /\ (L <= L' <= maxL)%nat /\ (0 <= off)%Z /\ (0 < bs)%Z
          /\ (off + bs <= Enum.countNamesForLength L')%Z
          /\ (useCpu = true -> bs <= 1024)%Z)
       /\ match x with
          | Some r => found r = true \/ aborted r = Some true
          | None => (startOff <= Enum.countNamesForLength startL)%Z ->
                    (S maxL - L <= fuel)%nat ->
                    totalChecked evs = bf_remaining L maxL startL startOff
          end).
Proof.
  intros Hc0 Hcpu0 Hs. revert L cur tuned Hc0 Hcpu0.
  induction fuel as [|f IH]; intros L cur tuned Hc Hcpu; cbn [bf_lengths].
  - apply appends_ret. split; [intros e []|]. intros _ H.
    unfold bf_remaining. replace (S maxL - L)%nat with O by lia. reflexivity.
  - destruct (Nat.leb_spec L maxL) as [HL|HL].
    2:{ apply appends_ret. split; [intros e []|]. intros _ _.
        unfold bf_remaining. replace (S maxL - L)%nat with O by lia. reflexivity. }
    eapply appends_bind; [apply appends_readAbort|]. intros ab e0 ->.
    destruct ab.
    { apply appends_ret. split; [intros e []|]. right. reflexivity. }
    set (off := if (L =? startL)%nat then startOff else 0%Z).
    assert (Hoff : (0 <= off)%Z) by (unfold off; destruct (L =? startL)%nat; lia).
    eapply appends_bind;
      [apply (bf_offsets_count _ L (Enum.countNamesForLength L) off cur tuned Hc Hcpu)|].
    intros x e1 [Hev1 Hx1]. cbn [app].
    destruct x as [r|[cur' tuned']].
    + apply appends_ret. rewrite app_nil_r. split; [|exact Hx1].
      intros e He. destruct (Hev1 e He) as (o1 & b & -> & H1 & H2 & H3 & H4).
      exists L, o1, b. repeat split; auto; lia.
    + destruct Hx1 as (Hc' & Hcpu' & Hcnt).
      eapply appends_weaken; [apply (IH (S L) cur' tuned' Hc' Hcpu')|].
      intros x e2 [Hev2 Hx2]. split.
      * intros e He. apply in_app_or in He as [He|He].
        -- destruct (Hev1 e He) as (o1 & b & -> & H1 & H2 & H3 & H4).
           exists L, o1, b. repeat split; auto; lia.
        -- destruct (Hev2 e He) as (L' & o1 & b & -> & H1 & H2 & H3 & H4 & H5).
           exists L', o1, b. repeat split; auto; lia.
      * destruct x as [r|]; [exact Hx2|]. intros Hso Hf.
        assert (Hot : (off <= Enum.countNamesForLength L)%Z).
        { unfold off. destruct (Nat.eqb_spec L startL) as [->|_]; [exact Hso|].
          apply count_nonneg. }
        rewrite totalChecked_app, (Hx2 Hso ltac:(lia)), (Hcnt Hot (le_n _)).
        rewrite (bf_remaining_step L maxL startL startOff HL). unfold off. lia.
Qed.

End Loops.

(** A run of [crack] from the position [resume_setup] gives: the
    batches it dispatches, and, when it reports Not found, the number of
    candidates it checked. *)
Lemma crack_count (P : Prims) (env : Env) (wl : list string) (hex : string)
    (o : CrackOptions) (startL : nat) (startOff : Z) (dictStart : nat)
    (skipDict : bool)
    (Hrs : resume_setup wl (opt 1%nat (startingLength o)) o
           = (startL, startOff, dictStart, skipDict))
    (H0 : (0 <= startOff)%Z) (Hso : (startOff <= Enum.countNamesForLength startL)%Z) :
  appends (crack P env wl hex o)
    (fun r evs =>
       (forall c L off bs, In (EvBatch c L off bs) evs ->
          (startL <= L <= opt 8%nat (maxLength o))%nat /\ (0 <= off)%Z /\ (0 < bs)%Z
          /\ (off + bs <= Enum.countNamesForLength L)%Z /\ (c = true -> bs <= 1024)%Z)
       /\ (forall pos, r = exhausted_result pos ->
            totalChecked evs =
              ((if opt true (useDictionary o) && negb skipDict && (0 <? List.length wl)%nat
                then Z.of_nat (List.length wl - dictStart) else 0)
               + bf_remaining startL (opt 8%nat (maxLength o)) startL startOff)%Z)).
Proof.
  unfold crack. cbv zeta.
  destruct (decodePacket P (Js.toLowerCase hex)) as [d|].
  2:{ apply appends_ret. split; [intros ? ? ? ? []|]. intros pos H. discriminate H. }
  eapply appends_bind; [apply appends_init_backend|]. intros useCpu e0 ->.
  cbv beta. rewrite Hrs. cbv beta iota.
  eapply appends_bind with
    (Q1 := fun rA eA => (eA = [] \/ eA = [EvPublic])
                        /\ (forall r, rA = Some r -> found r = true)).
  { destruct (negb skipDict && _ && _ && _)%bool.
    - eapply appends_bind; [apply appends_emit|]. intros _ e1 ->.
      destruct (String.eqb _ _); [destruct (verifyMacAndFilters _ _ _ _ _ _ _)|];
        apply appends_ret; (split; [right; reflexivity|]); intros r Hr;
        [injection Hr as <-; reflexivity|discriminate..].
    - apply appends_ret. split; [left; reflexivity|]. intros r Hr; discriminate. }
  intros rA eA (HA1 & HA2).
  assert (HnA : forall c L off bs, ~ In (EvBatch c L off bs) eA).
  { intros c L off bs Hin. destruct HA1 as [-> | ->]; simpl in Hin;
      [contradiction|destruct Hin as [Hin|[]]; discriminate]. }
  destruct rA as [r|].
  { apply appends_ret. split.
    - intros c L off bs Hin. rewrite ?app_nil_l, ?app_nil_r in Hin. exfalso. exact (HnA _ _ _ _ Hin).
    - intros pos ->. specialize (HA2 _ eq_refl). simpl in HA2. discriminate HA2. }
  eapply appends_bind with
    (Q1 := fun rB eB => (forall e, In e eB -> exists j w, e = EvDict j w)
       /\ match rB with
          | Some r => found r = true \/ aborted r = Some true
          | None => totalChecked eB =
                      (if opt true (useDictionary o) && negb skipDict
                          && (0 <? List.length wl)%nat
                       then Z.of_nat (List.length wl - dictStart) else 0)%Z
          end).
  { destruct (opt true (useDictionary o) && negb skipDict && (0 <? List.length wl)%nat)%bool.
    - eapply appends_weaken;
        [apply appends_conj; [apply dict_loop_trace|apply dict_loop_count]|].
      intros x e [H1 H2]. split.
      + intros e' He'. destruct (H1 e' He') as (j & w & -> & _). eauto.
      + destruct x as [r|]; [exact H2|]. apply H2. lia.
    - apply appends_ret. split; [intros e []|reflexivity]. }
  intros rB eB (HB1 & HB2).
  assert (HnB : forall c L off bs, ~ In (EvBatch c L off bs) eB).
  { intros c L off bs Hin. destruct (HB1 _ Hin) as (j & w & Hj). discriminate Hj. }
  destruct rB as [r|].
  { apply appends_ret. split.
    - intros c L off bs Hin. exfalso. rewrite ?app_nil_l, ?app_nil_r, ?in_app_iff in Hin.
      destruct Hin as [Hin|Hin]; [exact (HnA _ _ _ _ Hin)|exact (HnB _ _ _ _ Hin)].
    - intros pos ->. simpl in HB2. destruct HB2 as [H|H]; discriminate H. }
  assert (Hi1 : (1 <= INITIAL_BATCH_SIZE useCpu)%Z)
    by (unfold INITIAL_BATCH_SIZE; destruct useCpu; lia).
  assert (Hi2 : useCpu = true -> INITIAL_BATCH_SIZE useCpu = 1024%Z)
    by (intros ->; reflexivity).
  eapply appends_bind; [apply (bf_lengths_count _ _ _ _ _ _ _ _ _ _ _ _ _ _ Hi1 Hi2 H0)|].
  intros rC eC (HC1 & HC2).
  assert (Hb : forall c L off bs, In (EvBatch c L off bs) (eA ++ eB ++ eC) ->
            (startL <= L <= opt 8%nat (maxLength o))%nat /\ (0 <= off)%Z /\ (0 < bs)%Z
            /\ (off + bs <= Enum.countNamesForLength L)%Z /\ (c = true -> bs <= 1024)%Z).
  { intros c L off bs Hin.
    apply in_app_or in Hin as [Hin|Hin]; [exfalso; exact (HnA _ _ _ _ Hin)|].
    apply in_app_or in Hin as [Hin|Hin]; [exfalso; exact (HnB _ _ _ _ Hin)|].
    destruct (HC1 _ Hin) as (L' & o1 & b & E & H1 & H2 & H3 & H4 & H5).
    injection E as -> -> -> ->. auto. }
  destruct rC as [r|]; apply appends_ret; rewrite ?app_nil_l, ?app_nil_r; split; try exact Hb.
  - intros pos ->. simpl in HC2. destruct HC2 as [H|H]; discriminate H.
  - intros pos _. rewrite !totalChecked_app, HB2, (HC2 Hso ltac:(lia)).
    destruct HA1 as [-> | ->]; reflexivity.
Qed.

End CrackCount.

(** X13: every batch [crack] hands to the CPU or GPU executor is at a
    length from [startingLength] to [maxLength], starts at a
    non-negative offset, is non-empty, ends inside the length's index
    space ([offset + batchSize <= countNamesForLength(length)]), and
    holds at most 1024 candidates when it runs on the CPU. *)
Theorem crack_batches_in_range (P : Prims) (env : Env) (wl : list string)
    (hex : string) (o : CrackOptions) :
  appends (crack P env wl hex o)
    (fun _ evs => forall c L off bs, In (EvBatch c L off bs) evs ->
       (opt 1%nat (startingLength o) <= L <= opt 8%nat (maxLength o))%nat
       /\ (0 <= off)%Z /\ (0 < bs)%Z
       /\ (off + bs <= Enum.countNamesForLength L)%Z
       /\ (c = true -> bs <= 1024)%Z).
Proof.
  pose proof (CrackCount.resume_setup_range wl (opt 1%nat (startingLength o)) o) as Hr.
  destruct (resume_setup wl (opt 1%nat (startingLength o)) o)
    as [[[startL startOff] dictStart] skipDict] eqn:Hrs.
  destruct Hr as (Hn & H0 & Hso & _).
  eapply TraceFacts.appends_weaken;
    [exact (CrackCount.crack_count P env wl hex o _ _ _ _ Hrs H0 Hso)|].
  intros r evs [Hb _] c L off bs Hin.
  destruct (Hb c L off bs Hin) as (H1 & H2). split; [lia|exact H2].
Qed.

(** X14: when [crack] reports Not found, the candidates it checked (one
    per dictionary word tested, [batchSize] per executor call) add up to
    the [totalCandidates] it computed for its progress reports, except
    when the resume position lies beyond [maxLength]: then nothing is
    checked while [totalCandidates] is [-startFromOffset]. *)
Theorem crack_exhausted_checked (P : Prims) (env : Env) (wl : list string)
    (hex : string) (o : CrackOptions) :
  let '(startL, startOff, dictStart, skipDict) :=
    resume_setup wl (opt 1%nat (startingLength o)) o in
  appends (crack P env wl hex o)
    (fun r evs => forall pos, r = exhausted_result pos ->
       totalChecked evs
       = (totalCandidates (opt true (useDictionary o)) skipDict (List.length wl) dictStart
            startL (opt 8%nat (maxLength o)) startOff
          + (if (opt 8%nat (maxLength o) <? startL)%nat then startOff else 0))%Z).
Proof.
  pose proof (CrackCount.resume_setup_range wl (opt 1%nat (startingLength o)) o) as Hr.
  destruct (resume_setup wl (opt 1%nat (startingLength o)) o)
    as [[[startL startOff] dictStart] skipDict] eqn:Hrs.
  destruct Hr as (Hn & H0 & Hso & Hd).
  eapply TraceFacts.appends_weaken;
    [exact (CrackCount.crack_count P env wl hex o _ _ _ _ Hrs H0 Hso)|].
  intros r evs [_ Hc] pos Hp. rewrite (Hc pos Hp).
  unfold totalCandidates. rewrite CrackCount.fold_left_count.
  rewrite (CrackCount.bf_remaining_sum _ startL (opt 8%nat (maxLength o)) startL startOff eq_refl).
  rewrite Nat.leb_refl. cbn [andb].
  destruct (opt true (useDictionary o) && negb skipDict && (0 <? List.length wl)%nat)%bool;
    destruct (Nat.leb_spec startL (opt 8%nat (maxLength o)));
    destruct (Nat.ltb_spec (opt 8%nat (maxLength o)) startL); lia.
Qed.

Module BuildReports.

Lemma build_loop_reports (P : Prims) (ws : list string) (i n : nat) (p : bool)
    (m : dict_entries) :
  match Dict.build_loop P ws i n p m with
  | Some (_, reps) =>
      reps = if p then map (fun j => (j, n))
                         (filter (fun j => (j mod 10000 =? 0)%nat) (seq i (List.length ws)))
             else []
  | None => True
  end.
Proof.
  revert i m. induction ws as [|w ws IH]; intros i m; cbn [Dict.build_loop].
  - destruct p; reflexivity.
  - destruct (Dict.map_push m _ _) as [m'|]; [|exact I].
    specialize (IH (S i) m').
    destruct (Dict.build_loop P ws (S i) n p m') as [[m'' reps]|]; [|exact I].
    rewrite IH. cbn [List.length seq filter]. destruct p; cbn [andb]; [|reflexivity].
    destruct (i mod 10000 =? 0)%nat; reflexivity.
Qed.

End BuildReports.

(** X15: when [build] returns, its [onProgress] calls are, in order,
    [(i, n)] for every index [i] of the word list that is a multiple of
    10000, then [(n, n)], where [n] is the number of words; without a
    callback nothing is reported. *)
Theorem build_progress_reports (P : Prims) (d : Dict.DictionaryIndex) (ws : list string)
    (onProgress : bool) :
  match Dict.build P d ws onProgress with
  | Some (_, reports) =>
      reports = if onProgress
                then map (fun i => (i, List.length ws))
                       (filter (fun i => (i mod 10000 =? 0)%nat) (seq 0 (List.length ws)))
                     ++ [(List.length ws, List.length ws)]
                else []
  | None => True
  end.
Proof.
  unfold Dict.build.
  pose proof (BuildReports.build_loop_reports P ws 0 (List.length ws) onProgress
                (Dict.byHash d)) as H.
  destruct (Dict.build_loop P ws 0 (List.length ws) onProgress (Dict.byHash d))
    as [[m reps]|]; [|exact I].
  rewrite H. destruct onProgress; reflexivity.
Qed.
